(** * The decision-and-dispatch core of the zap logging library

    A shallow embedding of the [zapcore] and [zap] packages of the Go
    sources: levels and level enablers, the [Core] implementations (no-op,
    io, tee, level filter, hooks, observer), the pooled [CheckedEntry]
    write protocol and [Logger.check], followed by the properties the
    specification states about them.

    Conventions.
    - A Go [Level] (an [int8]) is a [Z]; the loops that walk levels never
      leave [-2 .. 6], so no wrap-around is involved, except in
      [AtomicLevel.Level], which narrows an [int32] and is written with its
      wrap.
    - A Go [error] is the list of its atomic messages: [nil] is the empty
      list, a plain error is a singleton and the combined error of
      [go.uber.org/multierr] (a dependency outside the repository) is the
      flattened list of its parts.
    - Interface values are closed sums of the implementations found in the
      sources.  [lazyWithCore], which hides a [sync.Once], is not covered.
    - [Core.Write] and [Core.Sync] only talk to the outside world (encoders,
      sinks, hooks, observers): they live in a writer monad of events.
      Everything that touches a [*CheckedEntry] lives in a state monad over
      the heap of checked entries, their pool and the event trace. *)

From Stdlib Require Import ZArith List String Bool Lia.
From Stdlib Require Import DecimalString.
Import ListNotations.
Open Scope string_scope.
Open Scope list_scope.
Open Scope Z_scope.

(* ================================================================== *)
(** ** Levels (zapcore/level.go) *)

Definition Level := Z.

Definition DebugLevel : Level := -1.
Definition InfoLevel : Level := 0.
Definition WarnLevel : Level := 1.
Definition ErrorLevel : Level := 2.
Definition DPanicLevel : Level := 3.
Definition PanicLevel : Level := 4.
Definition FatalLevel : Level := 5.

Definition _minLevel : Level := DebugLevel.
Definition _maxLevel : Level := FatalLevel.
Definition InvalidLevel : Level := _maxLevel + 1.

(** Narrowing conversion to [int8]. *)
Definition int8 (z : Z) : Z := (z + 128) mod 256 - 128.

(** [Level.Enabled]: the given level is at or above this level. *)
Definition Level_Enabled (l lvl : Level) : bool := lvl >=? l.

Definition decimal (z : Z) : string := NilZero.string_of_int (Z.to_int z).

(** [Level.String] *)
Definition Level_String (l : Level) : string :=
  if l =? DebugLevel then "debug"
  else if l =? InfoLevel then "info"
  else if l =? WarnLevel then "warn"
  else if l =? ErrorLevel then "error"
  else if l =? DPanicLevel then "dpanic"
  else if l =? PanicLevel then "panic"
  else if l =? FatalLevel then "fatal"
  else ("Level(" ++ decimal l ++ ")")%string.

(* ================================================================== *)
(** ** Errors and multierr *)

Definition error := list string.

Definition isNil (e : error) : bool :=
  match e with [] => true | _ :: _ => false end.

(** [multierr.Append]: [nil] on either side returns the other side, two
    errors are combined and flattened. *)
Definition multierr_Append (left right : error) : error :=
  match left, right with
  | [], _ => right
  | _, [] => left
  | _, _ => left ++ right
  end.

(* ================================================================== *)
(** ** Entries, fields, sinks, encoders *)

Record EntryCaller := mkEntryCaller {
  Defined : bool;
  PC : Z;
  File : string;
  Line : Z;
  Function : string
}.

Definition noCaller : EntryCaller := mkEntryCaller false 0 "" 0 "".

Record Entry := mkEntry {
  entLevel : Level;
  entTime : Z;
  entLoggerName : string;
  entMessage : string;
  entCaller : EntryCaller;
  entStack : string
}.

(** The zero value [Entry{}]. *)
Definition zeroEntry : Entry := mkEntry 0 0 "" "" noCaller "".

(** Modelled from the spec: [Field] (zapcore/field.go is not among the
    sources), "a tagged union (key + typed value) representing one
    structured datum"; the value is kept in rendered form. *)
Record Field := mkField { Key : string; Value : string }.

(** What is handed to a sink: the bytes of an encoded entry, or one of the
    diagnostic lines that [CheckedEntry.Write] and [Logger.check] print
    with [fmt.Fprintf]. *)
Inductive Payload :=
| Bytes (buf : string)
| UnsafeReuseLine (t : Z) (ent : Entry)
| WriteErrorLine (t : Z) (err : error)
| NoCallerLine (t : Z).

(** A [WriteSyncer]: a named sink with the answers it gives to [Write]
    (the byte count is never looked at by the callers here) and [Sync]. *)
Record WriteSyncer := mkWriteSyncer {
  wsName : string;
  wsWrite : Payload -> error;
  wsSync : error
}.

(** What [Encoder.EncodeEntry] returns: a pooled buffer, or a non-nil
    error. *)
Inductive EncodeResult :=
| Encoded (buf : string)
| EncodeFailed (e : string) (es : list string).

(** An [Encoder]: the fields added to it so far and its rendering
    function.  [Clone] copies the value, so later additions to the clone
    are not seen by the original. *)
Record Encoder := mkEncoder {
  encName : string;
  encFields : list Field;
  encRender : list Field -> Entry -> list Field -> EncodeResult
}.

Definition Encoder_Clone (enc : Encoder) : Encoder :=
  mkEncoder (encName enc) (encFields enc) (encRender enc).

(** Modelled from the spec: [addFields] (zapcore/field.go is not among the
    sources), "writes the new fields into the clone". *)
Definition addFields (enc : Encoder) (fields : list Field) : Encoder :=
  mkEncoder (encName enc) (encFields enc ++ fields) (encRender enc).

(** A callback registered with [RegisterHooks]. *)
Record Hook := mkHook {
  hookName : string;
  hookRun : Entry -> error
}.

(* ================================================================== *)
(** ** Events and the writer monad of [Write] and [Sync] *)

Inductive Event :=
| EvEncode (enc : string) (context : list Field) (ent : Entry) (fields : list Field)
| EvSinkWrite (ws : string) (p : Payload)
| EvBufferFree (buf : string)
| EvSinkSync (ws : string)
| EvHook (name : string) (ent : Entry)
| EvObserve (logs : nat) (ent : Entry) (all : list Field)
| EvOnWrite (hook : string) (ce : nat) (fields : list Field).

Definition W (A : Type) : Type := (A * list Event)%type.

Definition wret {A} (a : A) : W A := (a, []).

Definition wbind {A B} (m : W A) (k : A -> W B) : W B :=
  let '(a, t1) := m in
  let '(b, t2) := k a in
  (b, t1 ++ t2).

Definition emit (e : Event) : W unit := (tt, [e]).

Declare Scope writer_scope.
Delimit Scope writer_scope with writer.
Notation "x <- m ;; k" := (wbind m (fun x => k))
  (at level 61, m at next level, right associativity) : writer_scope.
Notation "m ;; k" := (wbind m (fun _ => k))
  (at level 61, right associativity) : writer_scope.

Definition WriteSyncer_Write (ws : WriteSyncer) (p : Payload) : W error :=
  (wsWrite ws p, [EvSinkWrite (wsName ws) p]).

Definition WriteSyncer_Sync (ws : WriteSyncer) : W error :=
  (wsSync ws, [EvSinkSync (wsName ws)]).

Definition Encoder_EncodeEntry (enc : Encoder) (ent : Entry) (fields : list Field)
  : W EncodeResult :=
  (encRender enc (encFields enc) ent fields,
   [EvEncode (encName enc) (encFields enc) ent fields]).

(** [buf.Free()]: the buffer goes back to its pool. *)
Definition Buffer_Free (buf : string) : W unit := emit (EvBufferFree buf).

(** A [for i := range xs] loop with one accumulator. *)
Section ForRange.
Context {A S : Type}.
Variable body : A -> S -> W S.

Fixpoint forRange (xs : list A) (s : S) : W S :=
  match xs with
  | [] => wret s
  | x :: xs' => wbind (body x s) (forRange xs')
  end.
End ForRange.

(* ================================================================== *)
(** ** Level enablers and cores *)

(** The [LevelEnabler] implementations: a static [Level], a
    [zap.LevelEnablerFunc], a [zap.AtomicLevel] (a pointer to an atomic
    [int32] cell) and, since [Core] embeds [LevelEnabler], any core.
    The [Core] implementations: [nopCore], [ioCore], [multiCore],
    [levelFilterCore], [hooked] and the observer's [contextObserver]. *)
#[local] Unset Elimination Schemes.
Inductive LevelEnabler :=
| StaticLevel (l : Level)
| LevelEnablerFunc (f : Level -> bool)
| AtomicLevel (l : nat)
| CoreEnabler (c : Core)
with Core :=
| nopCore
| ioCore (enab : LevelEnabler) (enc : Encoder) (out : WriteSyncer)
| multiCore (mc : list Core)
| levelFilterCore (core : Core) (level : LevelEnabler)
| hooked (core : Core) (funcs : list Hook)
| contextObserver (enab : LevelEnabler) (logs : nat) (context : list Field).
#[local] Set Elimination Schemes.

(* ------------------------------------------------------------------ *)
(** *** Constructors *)

(** [NewNopCore] *)
Definition NewNopCore : Core := nopCore.

(** [NewCore] *)
Definition NewCore (enc : Encoder) (ws : WriteSyncer) (enab : LevelEnabler) : Core :=
  ioCore enab enc ws.

(** [RegisterHooks]; the hooks are copied into a fresh slice. *)
Definition RegisterHooks (core : Core) (hooks : list Hook) : Core :=
  hooked core ([] ++ hooks).

(** [observer.New]; [logs] is the address of the fresh [ObservedLogs]. *)
Definition observer_New (enab : LevelEnabler) (logs : nat) : Core :=
  contextObserver enab logs [].

(** [NewTee] *)
Definition NewTee (cores : list Core) : Core :=
  match cores with
  | [] => NewNopCore
  | [c] => c
  | _ => multiCore cores
  end.

(* ------------------------------------------------------------------ *)
(** *** [With] *)

(** [ioCore.clone] followed by [addFields] on the clone's encoder. *)
Definition ioCore_With (enab : LevelEnabler) (enc : Encoder) (out : WriteSyncer)
  (fields : list Field) : Core :=
  ioCore enab (addFields (Encoder_Clone enc) fields) out.

(** [multiCore.With] *)
Definition multiCore_With (With : Core -> list Field -> Core)
  (mc : list Core) (fields : list Field) : Core :=
  multiCore (map (fun c => With c fields) mc).

Fixpoint Core_With (c : Core) (fields : list Field) : Core :=
  match c with
  | nopCore => nopCore
  | ioCore enab enc out => ioCore_With enab enc out fields
  | multiCore mc => multiCore_With Core_With mc fields
  | levelFilterCore core level => levelFilterCore (Core_With core fields) level
  | hooked core funcs => hooked (Core_With core fields) funcs
  | contextObserver enab logs context => contextObserver enab logs (context ++ fields)
  end.

(* ------------------------------------------------------------------ *)
(** *** [Write] and [Sync] *)

Local Open Scope writer_scope.

(** [ioCore.Sync] *)
Definition ioCore_Sync (out : WriteSyncer) : W error := WriteSyncer_Sync out.

(** [ioCore.Write] *)
Definition ioCore_Write (enc : Encoder) (out : WriteSyncer)
  (ent : Entry) (fields : list Field) : W error :=
  r <- Encoder_EncodeEntry enc ent fields ;;
  match r with
  | EncodeFailed e es => wret (e :: es)
  | Encoded buf =>
      err <- WriteSyncer_Write out (Bytes buf) ;;
      Buffer_Free buf ;;
      if negb (isNil err) then wret err
      else if entLevel ent >? ErrorLevel then
        (* the error of Sync is dropped *)
        ioCore_Sync out ;; wret []
      else wret []
  end.

(** [multiCore.Write] *)
Definition multiCore_Write (Write : Core -> Entry -> list Field -> W error)
  (mc : list Core) (ent : Entry) (fields : list Field) : W error :=
  forRange (fun c err => e <- Write c ent fields ;; wret (multierr_Append err e)) mc [].

(** [multiCore.Sync] *)
Definition multiCore_Sync (Sync : Core -> W error) (mc : list Core) : W error :=
  forRange (fun c err => e <- Sync c ;; wret (multierr_Append err e)) mc [].

(** Calling one registered callback. *)
Definition Hook_call (h : Hook) (ent : Entry) : W error :=
  (hookRun h ent, [EvHook (hookName h) ent]).

(** [hooked.Write]; the fields are not looked at. *)
Definition hooked_Write (funcs : list Hook) (ent : Entry) (_ : list Field) : W error :=
  forRange (fun h err => e <- Hook_call h ent ;; wret (multierr_Append err e)) funcs [].

(** [contextObserver.Write] *)
Definition contextObserver_Write (logs : nat) (context : list Field)
  (ent : Entry) (fields : list Field) : W error :=
  let all := ([] ++ context) ++ fields in
  emit (EvObserve logs ent all) ;; wret [].

Fixpoint Core_Write (c : Core) (ent : Entry) (fields : list Field) : W error :=
  match c with
  | nopCore => wret []
  | ioCore _ enc out => ioCore_Write enc out ent fields
  | multiCore mc => multiCore_Write Core_Write mc ent fields
  | levelFilterCore core _ => Core_Write core ent fields
  | hooked _ funcs => hooked_Write funcs ent fields
  | contextObserver _ logs context => contextObserver_Write logs context ent fields
  end.

Fixpoint Core_Sync (c : Core) : W error :=
  match c with
  | nopCore => wret []
  | ioCore _ _ out => ioCore_Sync out
  | multiCore mc => multiCore_Sync Core_Sync mc
  | levelFilterCore core _ => Core_Sync core
  | hooked core _ => Core_Sync core
  | contextObserver _ _ _ => wret []
  end.

Local Close Scope writer_scope.

(** The probe of [LevelOf]:
    [for lvl := _minLevel; lvl <= _maxLevel; lvl++]. *)
Fixpoint probeUp (fuel : nat) (lvl : Level) (enabled : Level -> bool) : Level :=
  match fuel with
  | O => InvalidLevel
  | S fuel' =>
      if lvl <=? _maxLevel then
        if enabled lvl then lvl else probeUp fuel' (lvl + 1) enabled
      else InvalidLevel
  end.

Definition probe (enabled : Level -> bool) : Level := probeUp 8 _minLevel enabled.

Section Methods.
(** The contents of the atomic cells behind the [AtomicLevel]s. *)
Variable load : nat -> Z.

(** [AtomicLevel.Level] *)
Definition AtomicLevel_Level (l : nat) : Level := int8 (load l).

(** [AtomicLevel.Enabled] *)
Definition AtomicLevel_Enabled (l : nat) (lvl : Level) : bool :=
  Level_Enabled (AtomicLevel_Level l) lvl.

(** [AtomicLevel.SetLevel], as the new contents of the cells. *)
Definition AtomicLevel_SetLevel (l : nat) (lvl : Level) : nat -> Z :=
  fun cell => if Nat.eqb cell l then lvl else load cell.

(** [multiCore.Enabled], over the [Enabled] of the children. *)
Definition multiCore_Enabled (Enabled : Core -> Level -> bool)
  (mc : list Core) (lvl : Level) : bool :=
  (fix loop (cs : list Core) : bool :=
     match cs with
     | [] => false
     | c :: cs' => if Enabled c lvl then true else loop cs'
     end) mc.

(** Dynamic dispatch of [Enabled].  [ioCore], [hooked] and
    [contextObserver] get the method from the value they embed. *)
Fixpoint Enabled (enab : LevelEnabler) (lvl : Level) : bool :=
  match enab with
  | StaticLevel l => Level_Enabled l lvl
  | LevelEnablerFunc f => f lvl
  | AtomicLevel l => AtomicLevel_Enabled l lvl
  | CoreEnabler c => Core_Enabled c lvl
  end
with Core_Enabled (c : Core) (lvl : Level) : bool :=
  match c with
  | nopCore => false
  | ioCore enab _ _ => Enabled enab lvl
  | multiCore mc => multiCore_Enabled Core_Enabled mc lvl
  | levelFilterCore _ level => Enabled level lvl
  | hooked core _ => Core_Enabled core lvl
  | contextObserver enab _ _ => Enabled enab lvl
  end.

(** [multiCore.Level], over the [LevelOf] of the children. *)
Definition multiCore_Level (LevelOf : Core -> Level) (mc : list Core) : Level :=
  (fix loop (cs : list Core) (minLvl : Level) : Level :=
     match cs with
     | [] => minLvl
     | c :: cs' =>
         let lvl := LevelOf c in
         if lvl <? minLvl then loop cs' lvl else loop cs' minLvl
     end) mc _maxLevel.

(** [LevelOf]: the type assertion to [leveledEnabler] succeeds for
    [AtomicLevel] and for every core but [nopCore], whose [Level] method
    is then called; the others are probed. *)
Fixpoint LevelOf (enab : LevelEnabler) : Level :=
  match enab with
  | StaticLevel l => probe (Level_Enabled l)
  | LevelEnablerFunc f => probe f
  | AtomicLevel l => AtomicLevel_Level l
  | CoreEnabler c => Core_LevelOf c
  end
with Core_LevelOf (c : Core) : Level :=
  match c with
  | nopCore => probe (fun _ => false)
  | ioCore enab _ _ => LevelOf enab
  | multiCore mc => multiCore_Level Core_LevelOf mc
  | levelFilterCore _ level => LevelOf level
  | hooked core _ => Core_LevelOf core
  | contextObserver enab _ _ => LevelOf enab
  end.

(** The loop of [NewIncreaseLevelCore]:
    [for l := _maxLevel; l >= _minLevel; l--]; the level at which the
    construction is refused, if any. *)
Fixpoint firstWidened (fuel : nat) (l : Level) (core : Core) (level : LevelEnabler)
  : option Level :=
  match fuel with
  | O => None
  | S fuel' =>
      if l >=? _minLevel then
        if negb (Core_Enabled core l) && Enabled level l then Some l
        else firstWidened fuel' (l - 1) core level
      else None
  end.

Definition quote : string := String (Ascii.ascii_of_nat 34) EmptyString.

(** [NewIncreaseLevelCore]: the core ([None] is the nil interface) and
    the error. *)
Definition NewIncreaseLevelCore (core : Core) (level : LevelEnabler)
  : option Core * error :=
  match firstWidened 8 _maxLevel core level with
  | Some l =>
      (None,
       [("invalid increase level, as level " ++ quote ++ Level_String l ++ quote
         ++ " is allowed by increased level, but not by existing core")%string])
  | None => (Some (levelFilterCore core level), [])
  end.
End Methods.

(* ================================================================== *)
(** ** Checked entries (zapcore/entry.go) *)

(** A [CheckWriteHook] interface value: nil, a [CheckWriteAction] (a
    [uint8]) or a hook type of the user. *)
Inductive CheckWriteHook :=
| nilHook
| ActionHook (a : Z)
| CustomHook (name : string).

Definition WriteThenNoop : Z := 0.
Definition WriteThenGoexit : Z := 1.
Definition WriteThenPanic : Z := 2.
Definition WriteThenFatal : Z := 3.

Record CheckedEntry := mkCheckedEntry {
  ceEntry : Entry;
  ErrorOutput : option WriteSyncer;
  dirty : bool;
  after : CheckWriteHook;
  cores : list Core
}.

Definition set_Entry (ent : Entry) (ce : CheckedEntry) : CheckedEntry :=
  mkCheckedEntry ent (ErrorOutput ce) (dirty ce) (after ce) (cores ce).
Definition set_ErrorOutput (ws : option WriteSyncer) (ce : CheckedEntry) : CheckedEntry :=
  mkCheckedEntry (ceEntry ce) ws (dirty ce) (after ce) (cores ce).
Definition set_dirty (b : bool) (ce : CheckedEntry) : CheckedEntry :=
  mkCheckedEntry (ceEntry ce) (ErrorOutput ce) b (after ce) (cores ce).
Definition set_after (h : CheckWriteHook) (ce : CheckedEntry) : CheckedEntry :=
  mkCheckedEntry (ceEntry ce) (ErrorOutput ce) (dirty ce) h (cores ce).
Definition set_cores (cs : list Core) (ce : CheckedEntry) : CheckedEntry :=
  mkCheckedEntry (ceEntry ce) (ErrorOutput ce) (dirty ce) (after ce) cs.

(** The state of [exit.StubbedExit]. *)
Record StubbedExit := mkStubbedExit { Exited : bool; Code : Z }.

(** The mutable state: the checked entries by address, the next free
    address, the free list of [_cePool], the stub installed in
    [exit._exit] ([None] is [os.Exit]) and the events so far. *)
Record World := mkWorld {
  heap : nat -> CheckedEntry;
  brk : nat;
  _cePool : list nat;
  _exit : option StubbedExit;
  trace : list Event
}.

Definition M (A : Type) : Type := World -> A * World.

Definition ret {A} (a : A) : M A := fun w => (a, w).

Definition bind {A B} (m : M A) (k : A -> M B) : M B :=
  fun w => let '(a, w1) := m w in k a w1.

Declare Scope state_scope.
Delimit Scope state_scope with state.
Notation "x <- m ;; k" := (bind m (fun x => k))
  (at level 61, m at next level, right associativity) : state_scope.
Notation "m ;; k" := (bind m (fun _ => k))
  (at level 61, right associativity) : state_scope.

Local Open Scope state_scope.

(** Run an outside effect and append its events to the trace. *)
Definition liftW {A} (m : W A) : M A :=
  fun w =>
    (fst m, mkWorld (heap w) (brk w) (_cePool w) (_exit w) (trace w ++ snd m)).

(** Reading through a pointer. *)
Definition deref (p : nat) : M CheckedEntry := fun w => (heap w p, w).

(** Writing through a pointer. *)
Definition update (p : nat) (f : CheckedEntry -> CheckedEntry) : M unit :=
  fun w =>
    (tt, mkWorld (fun q => if Nat.eqb q p then f (heap w p) else heap w q)
                 (brk w) (_cePool w) (_exit w) (trace w)).

(** Modelled from the spec: the generic object pool (internal/pool is not
    among the sources), "obtain a fresh instance from the pool" and "return
    the instance to the pool": a free list; when it is empty the
    constructor given to [pool.New] builds the object, here a
    [CheckedEntry] with room for four cores. *)
Definition _cePool_Get : M nat :=
  fun w =>
    match _cePool w with
    | p :: rest => (p, mkWorld (heap w) (brk w) rest (_exit w) (trace w))
    | [] =>
        let p := brk w in
        (p, mkWorld (fun q => if Nat.eqb q p
                              then mkCheckedEntry zeroEntry None false nilHook []
                              else heap w q)
                    (S p) [] (_exit w) (trace w))
    end.

Definition _cePool_Put (p : nat) : M unit :=
  fun w => (tt, mkWorld (heap w) (brk w) (p :: _cePool w) (_exit w) (trace w)).

(** [CheckedEntry.reset] *)
Definition CheckedEntry_reset (p : nat) : M unit :=
  update p (set_Entry zeroEntry) ;;
  update p (set_ErrorOutput None) ;;
  update p (set_dirty false) ;;
  update p (set_after nilHook) ;;
  update p (set_cores []).

(** [getCheckedEntry] *)
Definition getCheckedEntry : M nat :=
  ce <- _cePool_Get ;;
  CheckedEntry_reset ce ;;
  ret ce.

(** [putCheckedEntry] *)
Definition putCheckedEntry (ce : option nat) : M unit :=
  match ce with
  | None => ret tt
  | Some p => _cePool_Put p
  end.

(** [CheckedEntry.AddCore]; safe on a nil receiver, never returns nil. *)
Definition CheckedEntry_AddCore (ce : option nat) (ent : Entry) (core : Core) : M nat :=
  p <- match ce with
       | None => p <- getCheckedEntry ;; update p (set_Entry ent) ;; ret p
       | Some p => ret p
       end ;;
  o <- deref p ;;
  update p (set_cores (cores o ++ [core])) ;;
  ret p.

(** [CheckedEntry.After]; safe on a nil receiver, never returns nil. *)
Definition CheckedEntry_After (ce : option nat) (ent : Entry) (hook : CheckWriteHook) : M nat :=
  p <- match ce with
       | None => p <- getCheckedEntry ;; update p (set_Entry ent) ;; ret p
       | Some p => ret p
       end ;;
  update p (set_after hook) ;;
  ret p.

(** [CheckedEntry.Should] *)
Definition CheckedEntry_Should (ce : option nat) (ent : Entry) (should : Z) : M nat :=
  CheckedEntry_After ce ent (ActionHook should).

(** How a call that may not return normally ends. *)
Inductive Outcome :=
| Returned
| Goexit
| Panicked (msg : string)
| OsExit (code : Z).

(** [exit.With] *)
Definition exit_With (code : Z) : M Outcome :=
  fun w =>
    match _exit w with
    | None => (OsExit code, w)
    | Some _ =>
        (Returned,
         mkWorld (heap w) (brk w) (_cePool w) (Some (mkStubbedExit true code)) (trace w))
    end.

(** [CheckWriteAction.OnWrite] *)
Definition CheckWriteAction_OnWrite (a : Z) (ce : nat) (_ : list Field) : M Outcome :=
  if a =? WriteThenGoexit then ret Goexit
  else if a =? WriteThenPanic then o <- deref ce ;; ret (Panicked (entMessage (ceEntry o)))
  else if a =? WriteThenFatal then exit_With 1
  else ret Returned.

(** [hook.OnWrite(ce, fields)] on a non-nil hook. *)
Definition CheckWriteHook_OnWrite (hook : CheckWriteHook) (ce : nat) (fields : list Field)
  : M Outcome :=
  match hook with
  | nilHook => ret Returned
  | ActionHook a => CheckWriteAction_OnWrite a ce fields
  | CustomHook name => liftW (emit (EvOnWrite name ce fields)) ;; ret Returned
  end.

(** The loop of [CheckedEntry.Write] over [ce.cores]. *)
Definition writeCores (cs : list Core) (ent : Entry) (fields : list Field) : W error :=
  forRange (fun c err => wbind (Core_Write c ent fields)
                               (fun e => wret (multierr_Append err e))) cs [].

(** A diagnostic line on the error output, then [Sync], both errors
    dropped. *)
Definition report (ws : WriteSyncer) (line : Payload) : M unit :=
  liftW (WriteSyncer_Write ws line) ;;
  liftW (WriteSyncer_Sync ws) ;;
  ret tt.

(** [CheckedEntry.Write] *)
Definition CheckedEntry_Write (ce : option nat) (fields : list Field) : M Outcome :=
  match ce with
  | None => ret Returned
  | Some p =>
      o <- deref p ;;
      if dirty o then
        match ErrorOutput o with
        | Some ws => report ws (UnsafeReuseLine (entTime (ceEntry o)) (ceEntry o))
        | None => ret tt
        end ;;
        ret Returned
      else
        update p (set_dirty true) ;;
        err <- liftW (writeCores (cores o) (ceEntry o) fields) ;;
        (if negb (isNil err) then
           match ErrorOutput o with
           | Some ws => report ws (WriteErrorLine (entTime (ceEntry o)) err)
           | None => ret tt
           end
         else ret tt) ;;
        o' <- deref p ;;
        let hook := after o' in
        r <- match hook with
             | nilHook => ret Returned
             | _ => CheckWriteHook_OnWrite hook p fields
             end ;;
        match r with
        | Returned => putCheckedEntry ce ;; ret Returned
        | _ => ret r
        end
  end.


(* ================================================================== *)
(** ** [Check] *)

Section Checking.
Variable load : nat -> Z.

(** [ioCore.Check] and [contextObserver.Check], which read the same;
    [self] is the receiver. *)
Definition leaf_Check (self : Core) (enab : LevelEnabler)
  (ent : Entry) (ce : option nat) : M (option nat) :=
  if Enabled load enab (entLevel ent)
  then p <- CheckedEntry_AddCore ce ent self ;; ret (Some p)
  else ret ce.

(** [multiCore.Check] *)
Definition multiCore_Check (Check : Core -> Entry -> option nat -> M (option nat))
  (mc : list Core) (ent : Entry) (ce : option nat) : M (option nat) :=
  (fix loop (cs : list Core) (ce : option nat) : M (option nat) :=
     match cs with
     | [] => ret ce
     | c :: cs' => ce' <- Check c ent ce ;; loop cs' ce'
     end) mc ce.

(** [levelFilterCore.Check] *)
Definition levelFilterCore_Check (Check : Core -> Entry -> option nat -> M (option nat))
  (core : Core) (level : LevelEnabler) (ent : Entry) (ce : option nat)
  : M (option nat) :=
  if negb (Enabled load level (entLevel ent)) then ret ce
  else Check core ent ce.

(** [hooked.Check]; [self] is the receiver. *)
Definition hooked_Check (Check : Core -> Entry -> option nat -> M (option nat))
  (self core : Core) (ent : Entry) (ce : option nat) : M (option nat) :=
  downstream <- Check core ent ce ;;
  match downstream with
  | Some _ => p <- CheckedEntry_AddCore downstream ent self ;; ret (Some p)
  | None => ret ce
  end.

Fixpoint Core_Check (c : Core) (ent : Entry) (ce : option nat) : M (option nat) :=
  match c with
  | nopCore => ret ce
  | ioCore enab _ _ => leaf_Check c enab ent ce
  | multiCore mc => multiCore_Check Core_Check mc ent ce
  | levelFilterCore core level => levelFilterCore_Check Core_Check core level ent ce
  | hooked core _ => hooked_Check Core_Check c core ent ce
  | contextObserver enab _ _ => leaf_Check c enab ent ce
  end.
End Checking.

(* ================================================================== *)
(** ** The logger (logger.go) *)

(** A [runtime.Frame], as far as it is read. *)
Record Frame := mkFrame {
  framePC : Z;
  frameFunction : string;
  frameFile : string;
  frameLine : Z
}.

(** What the Go runtime answers during one call of [Logger.check]: the
    time the logger's clock reports and, for a number of frames to skip,
    the frames of the calling goroutine. *)
Record Runtime := mkRuntime {
  Now : Z;
  Callers : Z -> list Frame
}.

Record Logger := mkLogger {
  core : Core;
  development : bool;
  addCaller : bool;
  onPanic : CheckWriteHook;
  onFatal : CheckWriteHook;
  name : string;
  errorOutput : WriteSyncer;
  addStack : LevelEnabler;
  callerSkip : Z
}.

(** [stacktrace.Capture]: the first frame only, or all of them. *)
Definition stacktrace_Capture (rt : Runtime) (skip : Z) (full : bool) : list Frame :=
  let frames := Callers rt (skip + 2) in
  if full then frames else firstn 1 frames.

(** [Formatter.FormatFrame], as the text it appends. *)
Definition FormatFrame (nonEmpty : bool) (frame : Frame) : string :=
  ((if nonEmpty then String (Ascii.ascii_of_nat 10) EmptyString else "")
   ++ frameFunction frame
   ++ String (Ascii.ascii_of_nat 10) (String (Ascii.ascii_of_nat 9) EmptyString)
   ++ frameFile frame ++ ":" ++ decimal (frameLine frame))%string.

(** [Formatter.FormatStack] after a first frame was written: every
    remaining frame but the last one, for which [Next] reports no more. *)
Fixpoint FormatStack (stack : list Frame) : string :=
  match stack with
  | [] => ""
  | [_] => ""
  | frame :: rest => (FormatFrame true frame ++ FormatStack rest)%string
  end.

(** [terminalHookOverride] *)
Definition terminalHookOverride (defaultHook override : CheckWriteHook) : CheckWriteHook :=
  match override with
  | nilHook => defaultHook
  | ActionHook a => if a =? WriteThenNoop then defaultHook else override
  | CustomHook _ => override
  end.

Section Logging.
Variable load : nat -> Z.

Definition callerSkipOffset : Z := 2.

(** The last part of [Logger.check], once the entry is known to be
    written: error output, caller and stack trace. *)
Definition annotate (log : Logger) (rt : Runtime) (ent : Entry) (p : nat)
  : M (option nat) :=
  update p (set_ErrorOutput (Some (errorOutput log))) ;;
  o <- deref p ;;
  let addStack := Enabled load (addStack log) (entLevel (ceEntry o)) in
  if negb (addCaller log) && negb addStack then ret (Some p)
  else
    let stack := stacktrace_Capture rt (callerSkip log + callerSkipOffset) addStack in
    match stack with
    | [] =>
        (if addCaller log
         then report (errorOutput log) (NoCallerLine (entTime ent))
         else ret tt) ;;
        ret (Some p)
    | frame :: rest =>
        (if addCaller log then
           update p (fun o =>
             set_Entry
               (mkEntry (entLevel (ceEntry o)) (entTime (ceEntry o))
                  (entLoggerName (ceEntry o)) (entMessage (ceEntry o))
                  (mkEntryCaller (negb (framePC frame =? 0)) (framePC frame)
                     (frameFile frame) (frameLine frame) (frameFunction frame))
                  (entStack (ceEntry o))) o)
         else ret tt) ;;
        (if addStack then
           let text := (FormatFrame false frame ++ FormatStack rest)%string in
           update p (fun o =>
             set_Entry
               (mkEntry (entLevel (ceEntry o)) (entTime (ceEntry o))
                  (entLoggerName (ceEntry o)) (entMessage (ceEntry o))
                  (entCaller (ceEntry o)) text) o)
         else ret tt) ;;
        ret (Some p)
    end.

(** [Logger.check] *)
Definition Logger_check (log : Logger) (rt : Runtime) (lvl : Level) (msg : string)
  : M (option nat) :=
  if (lvl <? DPanicLevel) && negb (Core_Enabled load (core log) lvl) then ret None
  else
    let ent := mkEntry lvl (Now rt) (name log) msg noCaller "" in
    ce <- Core_Check load (core log) ent None ;;
    let willWrite := match ce with Some _ => true | None => false end in
    ce <- (if entLevel ent =? PanicLevel then
             p <- CheckedEntry_After ce ent
                    (terminalHookOverride (ActionHook WriteThenPanic) (onPanic log)) ;;
             ret (Some p)
           else if entLevel ent =? FatalLevel then
             p <- CheckedEntry_After ce ent
                    (terminalHookOverride (ActionHook WriteThenFatal) (onFatal log)) ;;
             ret (Some p)
           else if entLevel ent =? DPanicLevel then
             if development log then
               p <- CheckedEntry_After ce ent
                      (terminalHookOverride (ActionHook WriteThenPanic) (onPanic log)) ;;
               ret (Some p)
             else ret ce
           else ret ce) ;;
    if negb willWrite then ret ce
    else
      match ce with
      | Some p => annotate log rt ent p
      | None => ret None
      end.
End Logging.

(* ================================================================== *)
(** ** Vocabulary of the statements *)

(** Whether the dynamic type of a [LevelEnabler] has a [Level() Level]
    method, that is, whether the assertion to [leveledEnabler] in
    [LevelOf] succeeds. *)
Definition leveledEnabler (enab : LevelEnabler) : bool :=
  match enab with
  | StaticLevel _ => false
  | LevelEnablerFunc _ => false
  | AtomicLevel _ => true
  | CoreEnabler nopCore => false
  | CoreEnabler _ => true
  end.

(** The [Level] method of the leveled enablers: [AtomicLevel.Level],
    [ioCore.Level], [multiCore.Level], [levelFilterCore.Level],
    [hooked.Level] and [contextObserver.Level]. *)
Definition Level_method (load : nat -> Z) (enab : LevelEnabler) : option Level :=
  match enab with
  | StaticLevel _ => None
  | LevelEnablerFunc _ => None
  | AtomicLevel l => Some (AtomicLevel_Level load l)
  | CoreEnabler nopCore => None
  | CoreEnabler (ioCore enab _ _) => Some (LevelOf load enab)
  | CoreEnabler (multiCore mc) =>
      Some (multiCore_Level (fun c => LevelOf load (CoreEnabler c)) mc)
  | CoreEnabler (levelFilterCore _ level) => Some (LevelOf load level)
  | CoreEnabler (hooked core _) => Some (LevelOf load (CoreEnabler core))
  | CoreEnabler (contextObserver enab _ _) => Some (LevelOf load enab)
  end.

(** The least element of a list of levels, [d] for the empty list. *)
Definition minLevel (d : Level) (ls : list Level) : Level :=
  match ls with
  | [] => d
  | l :: ls' => fold_left Z.min ls' l
  end.

(** What a caller may do with a handle it holds before writing it. *)
Inductive CEOp :=
| OpAddCore (ent : Entry) (c : Core)
| OpAfter (ent : Entry) (hook : CheckWriteHook)
| OpErrorOutput (ws : WriteSyncer).

Definition applyOp (op : CEOp) (p : nat) : M nat :=
  match op with
  | OpAddCore ent c => CheckedEntry_AddCore (Some p) ent c
  | OpAfter ent hook => CheckedEntry_After (Some p) ent hook
  | OpErrorOutput ws => update p (set_ErrorOutput (Some ws)) ;; ret p
  end.

Fixpoint applyOps (ops : list CEOp) (p : nat) : M nat :=
  match ops with
  | [] => ret p
  | op :: ops' => q <- applyOp op p ;; applyOps ops' q
  end.

(** A handle obtained by [AddCore] or [After] on a nil handle, and then
    used further. *)
Definition obtain (ent : Entry) (first : Core + CheckWriteHook) (ops : list CEOp) : M nat :=
  p <- match first with
       | inl c => CheckedEntry_AddCore None ent c
       | inr hook => CheckedEntry_After None ent hook
       end ;;
  applyOps ops p.

(** The cores, the hook and the error output such a handle ends up with. *)
Fixpoint addedCores (ops : list CEOp) : list Core :=
  match ops with
  | [] => []
  | OpAddCore _ c :: ops' => c :: addedCores ops'
  | _ :: ops' => addedCores ops'
  end.

Definition accumulated (first : Core + CheckWriteHook) (ops : list CEOp) : list Core :=
  match first with
  | inl c => c :: addedCores ops
  | inr _ => addedCores ops
  end.

Fixpoint lastHook (h : CheckWriteHook) (ops : list CEOp) : CheckWriteHook :=
  match ops with
  | [] => h
  | OpAfter _ hook :: ops' => lastHook hook ops'
  | _ :: ops' => lastHook h ops'
  end.

Fixpoint lastOutput (o : option WriteSyncer) (ops : list CEOp) : option WriteSyncer :=
  match ops with
  | [] => o
  | OpErrorOutput ws :: ops' => lastOutput (Some ws) ops'
  | _ :: ops' => lastOutput o ops'
  end.

(** The lines that [CheckedEntry.Write] prints on an error output: for a
    handle that was already written, and for a non-nil error of the
    cores. *)
Definition reuseReport (out : option WriteSyncer) (ent : Entry) : list Event :=
  match out with
  | Some ws =>
      [EvSinkWrite (wsName ws) (UnsafeReuseLine (entTime ent) ent);
       EvSinkSync (wsName ws)]
  | None => []
  end.

Definition errorReport (out : option WriteSyncer) (ent : Entry) (err : error)
  : list Event :=
  match out, err with
  | Some ws, _ :: _ =>
      [EvSinkWrite (wsName ws) (WriteErrorLine (entTime ent) err);
       EvSinkSync (wsName ws)]
  | _, _ => []
  end.

(** The events of the hook that runs after the cores were written. *)
Definition hookEvents (hook : CheckWriteHook) (p : nat) (fields : list Field)
  : list Event :=
  match hook with
  | CustomHook name => [EvOnWrite name p fields]
  | _ => []
  end.

(** [ioCore.Write] read as calling [Sync] after the write exactly when the
    level is above [ErrorLevel], whatever the sink answered. *)
Definition ioCore_Write_syncs_by_level_only
  (enc : Encoder) (out : WriteSyncer) (ent : Entry) (fields : list Field) : Prop :=
  match encRender enc (encFields enc) ent fields with
  | EncodeFailed e es =>
      ioCore_Write enc out ent fields
      = (e :: es, [EvEncode (encName enc) (encFields enc) ent fields])
  | Encoded buf =>
      snd (ioCore_Write enc out ent fields)
      = [EvEncode (encName enc) (encFields enc) ent fields;
         EvSinkWrite (wsName out) (Bytes buf);
         EvBufferFree buf]
        ++ (if entLevel ent >? ErrorLevel then [EvSinkSync (wsName out)] else [])
  end.

(* ================================================================== *)
(** ** More of the logger (logger.go) *)

Section LoggerMethods.
Variable load : nat -> Z.

(** [Logger.clone] copies the struct. *)
Definition Logger_clone (log : Logger) : Logger :=
  mkLogger (core log) (development log) (addCaller log) (onPanic log) (onFatal log)
    (name log) (errorOutput log) (addStack log) (callerSkip log).

Definition Logger_set_name (s : string) (log : Logger) : Logger :=
  mkLogger (core log) (development log) (addCaller log) (onPanic log) (onFatal log)
    s (errorOutput log) (addStack log) (callerSkip log).

Definition Logger_set_core (c : Core) (log : Logger) : Logger :=
  mkLogger c (development log) (addCaller log) (onPanic log) (onFatal log)
    (name log) (errorOutput log) (addStack log) (callerSkip log).

(** [Logger.Named]; [strings.Join] of two segments with a period. *)
Definition Logger_Named (log : Logger) (s : string) : Logger :=
  if String.eqb s "" then log
  else
    let l := Logger_clone log in
    if String.eqb (name log) "" then Logger_set_name s l
    else Logger_set_name (name l ++ "." ++ s)%string l.

(** [Logger.With] *)
Definition Logger_With (log : Logger) (fields : list Field) : Logger :=
  match fields with
  | [] => log
  | _ => let l := Logger_clone log in Logger_set_core (Core_With (core l) fields) l
  end.

(** [Logger.Level] *)
Definition Logger_Level (log : Logger) : Level := LevelOf load (CoreEnabler (core log)).

(** [Logger.Check] *)
Definition Logger_Check (log : Logger) (rt : Runtime) (lvl : Level) (msg : string)
  : M (option nat) :=
  Logger_check load log rt lvl msg.

(** [Logger.Log]; [Debug], [Info], [Warn], [Error], [DPanic], [Panic] and
    [Fatal] have the same body with their level. *)
Definition Logger_Log (log : Logger) (rt : Runtime) (lvl : Level) (msg : string)
  (fields : list Field) : M Outcome :=
  ce <- Logger_check load log rt lvl msg ;;
  match ce with
  | Some _ => CheckedEntry_Write ce fields
  | None => ret Returned
  end.

Definition Logger_Debug log rt := Logger_Log log rt DebugLevel.
Definition Logger_Info log rt := Logger_Log log rt InfoLevel.
Definition Logger_Warn log rt := Logger_Log log rt WarnLevel.
Definition Logger_Error log rt := Logger_Log log rt ErrorLevel.
Definition Logger_DPanic log rt := Logger_Log log rt DPanicLevel.
Definition Logger_Panic log rt := Logger_Log log rt PanicLevel.
Definition Logger_Fatal log rt := Logger_Log log rt FatalLevel.

(** [Logger.Sync], [Logger.Core] and [Logger.Name] *)
Definition Logger_Sync (log : Logger) : W error := Core_Sync (core log).
Definition Logger_Core (log : Logger) : Core := core log.
Definition Logger_Name (log : Logger) : string := name log.

(** Whether every [levelFilterCore] inside a core passes the test that
    [NewIncreaseLevelCore] makes before building one. *)
Fixpoint builtByConstructors (c : Core) : bool :=
  match c with
  | nopCore => true
  | ioCore _ _ _ => true
  | multiCore mc => forallb builtByConstructors mc
  | levelFilterCore core level =>
      match firstWidened load 8 _maxLevel core level with
      | None => builtByConstructors core
      | Some _ => false
      end
  | hooked core _ => builtByConstructors core
  | contextObserver _ _ _ => true
  end.
End LoggerMethods.

(** Whether [Logger.check] attaches a terminal hook at this level. *)
Definition terminalLevel (log : Logger) (lvl : Level) : bool :=
  (lvl =? PanicLevel) || (lvl =? FatalLevel)
  || ((lvl =? DPanicLevel) && development log).

(** The hook that [Logger.check] attaches at a terminal level. *)
Definition terminalHook (log : Logger) (lvl : Level) : CheckWriteHook :=
  if lvl =? FatalLevel
  then terminalHookOverride (ActionHook WriteThenFatal) (onFatal log)
  else terminalHookOverride (ActionHook WriteThenPanic) (onPanic log).

(** How [CheckedEntry.Write] ends for a hook, the message of the entry
    and the stub installed in [exit._exit]. *)
Definition hookOutcome (hook : CheckWriteHook) (msg : string) (stub : option StubbedExit)
  : Outcome :=
  match hook with
  | ActionHook a =>
      if a =? WriteThenGoexit then Goexit
      else if a =? WriteThenPanic then Panicked msg
      else if a =? WriteThenFatal then
        match stub with
        | None => OsExit 1
        | Some _ => Returned
        end
      else Returned
  | _ => Returned
  end.

(** [w'] is [w] with [added] appended to the cores of the checked entry
    at [p], and nothing else changed. *)
Definition appendsCores (w w' : World) (p : nat) (added : list Core) : Prop :=
  heap w' p = set_cores (cores (heap w p) ++ added) (heap w p)
  /\ (forall q, q <> p -> heap w' q = heap w q)
  /\ trace w' = trace w /\ _cePool w' = _cePool w
  /\ brk w' = brk w /\ _exit w' = _exit w.

Definition isReturned (r : Outcome) : bool :=
  match r with
  | Returned => true
  | _ => false
  end.

(* ================================================================== *)
(** ** Levels as text (zapcore/level.go, level.go) *)

(** [Level.CapitalString] *)
Definition Level_CapitalString (l : Level) : string :=
  if l =? DebugLevel then "DEBUG"
  else if l =? InfoLevel then "INFO"
  else if l =? WarnLevel then "WARN"
  else if l =? ErrorLevel then "ERROR"
  else if l =? DPanicLevel then "DPANIC"
  else if l =? PanicLevel then "PANIC"
  else if l =? FatalLevel then "FATAL"
  else ("LEVEL(" ++ decimal l ++ ")")%string.

(** [Level.MarshalText] *)
Definition Level_MarshalText (l : Level) : string * error := (Level_String l, []).

(** [Level.unmarshalText]: the level after the call and whether the text
    was recognised. *)
Definition Level_unmarshalText (l : Level) (text : string) : Level * bool :=
  if String.eqb text "debug" then (DebugLevel, true)
  else if String.eqb text "info" || String.eqb text "" then (InfoLevel, true)
  else if String.eqb text "warn" || String.eqb text "warning" then (WarnLevel, true)
  else if String.eqb text "error" then (ErrorLevel, true)
  else if String.eqb text "dpanic" then (DPanicLevel, true)
  else if String.eqb text "panic" then (PanicLevel, true)
  else if String.eqb text "fatal" then (FatalLevel, true)
  else (l, false).

Definition errUnmarshalNilLevel : error := ["can't unmarshal a nil *Level"].

(** Whether a byte string is ASCII, and the lower-casing of ASCII text. *)
Definition isASCIIbyte (c : Ascii.ascii) : bool := (Ascii.nat_of_ascii c <? 128)%nat.

Fixpoint isASCII (s : string) : bool :=
  match s with
  | EmptyString => true
  | String c s' => isASCIIbyte c && isASCII s'
  end.

Definition lowerByte (c : Ascii.ascii) : Ascii.ascii :=
  let n := Ascii.nat_of_ascii c in
  if ((65 <=? n) && (n <=? 90))%nat then Ascii.ascii_of_nat (n + 32) else c.

Fixpoint asciiLower (s : string) : string :=
  match s with
  | EmptyString => EmptyString
  | String c s' => String (lowerByte c) (asciiLower s')
  end.

Section LevelText.
(** [bytes.ToLower] and the quoting of [%q], which belong to the Go
    library. *)
Variable ToLower : string -> string.
Variable Quote : string -> string.

(** [Level.UnmarshalText]; the receiver is a pointer, [None] when nil, and
    the result is what it points to afterwards, with the error. *)
Definition Level_UnmarshalText (l : option Level) (text : string)
  : option Level * error :=
  match l with
  | None => (None, errUnmarshalNilLevel)
  | Some v =>
      let '(v1, ok1) := Level_unmarshalText v text in
      if ok1 then (Some v1, [])
      else
        let '(v2, ok2) := Level_unmarshalText v1 (ToLower text) in
        if ok2 then (Some v2, [])
        else (Some v2, [("unrecognized level: " ++ Quote text)%string])
  end.

(** [ParseLevel] *)
Definition ParseLevel (text : string) : Level * error :=
  match Level_UnmarshalText (Some 0) text with
  | (Some level, err) => (level, err)
  | (None, err) => (0, err)
  end.

(** [Level.Set] *)
Definition Level_Set (l : option Level) (s : string) : option Level * error :=
  Level_UnmarshalText l s.

Variable load : nat -> Z.

(** [NewAtomicLevel]; [l] is the address of the new cell. *)
Definition NewAtomicLevel (l : nat) : nat -> Z :=
  AtomicLevel_SetLevel load l InfoLevel.

(** [NewAtomicLevelAt] *)
Definition NewAtomicLevelAt (a : nat) (l : Level) : nat -> Z :=
  AtomicLevel_SetLevel (NewAtomicLevel a) a l.

(** [ParseAtomicLevel]: the cells afterwards and the error. *)
Definition ParseAtomicLevel (a : nat) (text : string) : (nat -> Z) * error :=
  let cells := NewAtomicLevel a in
  let '(l, err) := ParseLevel text in
  if negb (isNil err) then (cells, err)
  else (AtomicLevel_SetLevel cells a l, []).

(** [AtomicLevel.String] *)
Definition AtomicLevel_String (l : nat) : string :=
  Level_String (AtomicLevel_Level load l).


End LevelText.

(* ================================================================== *)
(** ** Buffers (buffer/buffer.go) and callers (zapcore/entry.go) *)

(** A [Buffer] is the byte string it holds; its capacity and its pool
    are not modelled. *)
Definition Buffer := string.

Definition newline : Ascii.ascii := Ascii.ascii_of_nat 10.

Definition Buffer_AppendByte (b : Buffer) (v : Ascii.ascii) : Buffer :=
  (b ++ String v EmptyString)%string.
Definition Buffer_AppendBytes (b : Buffer) (v : string) : Buffer := (b ++ v)%string.
Definition Buffer_AppendString (b : Buffer) (s : string) : Buffer := (b ++ s)%string.
(** [strconv.AppendInt] in base 10 *)
Definition Buffer_AppendInt (b : Buffer) (i : Z) : Buffer := (b ++ decimal i)%string.
Definition Buffer_AppendBool (b : Buffer) (v : bool) : Buffer :=
  (b ++ (if v then "true" else "false"))%string.
Definition Buffer_Len (b : Buffer) : Z := Z.of_nat (String.length b).
Definition Buffer_Bytes (b : Buffer) : string := b.
Definition Buffer_String (b : Buffer) : string := b.
Definition Buffer_Reset (_ : Buffer) : Buffer := EmptyString.

(** [Buffer.Write], [WriteByte] and [WriteString]: the buffer afterwards
    and what is returned. *)
Definition Buffer_Write (b : Buffer) (bs : string) : Buffer * (Z * error) :=
  ((b ++ bs)%string, (Z.of_nat (String.length bs), [])).
Definition Buffer_WriteByte (b : Buffer) (v : Ascii.ascii) : Buffer * error :=
  (Buffer_AppendByte b v, []).
Definition Buffer_WriteString (b : Buffer) (s : string) : Buffer * (Z * error) :=
  (Buffer_AppendString b s, (Z.of_nat (String.length s), [])).

(** [Buffer.TrimNewline] *)
Definition Buffer_TrimNewline (b : Buffer) : Buffer :=
  let i := Buffer_Len b - 1 in
  if i >=? 0 then
    match String.get (Z.to_nat i) b with
    | Some c => if Ascii.eqb c newline then substring 0 (Z.to_nat i) b else b
    | None => b
    end
  else b.

(** [bufferpool.Get]: a buffer that was reset. *)
Definition bufferpool_Get : Buffer := Buffer_Reset EmptyString.

(** [strings.LastIndexByte]: the index of the last [c] in [s], or -1. *)
Fixpoint lastIndexFrom (s : string) (c : Ascii.ascii) (i found : Z) : Z :=
  match s with
  | EmptyString => found
  | String a s' => lastIndexFrom s' c (i + 1) (if Ascii.eqb a c then i else found)
  end.

Definition strings_LastIndexByte (s : string) (c : Ascii.ascii) : Z :=
  lastIndexFrom s c 0 (-1).

(** The slices [s[:i]] and [s[i:]]. *)
Definition sliceTo (s : string) (i : Z) : string := substring 0 (Z.to_nat i) s.
Definition sliceFrom (s : string) (i : Z) : string :=
  substring (Z.to_nat i) (String.length s - Z.to_nat i) s.

Definition slash : Ascii.ascii := Ascii.ascii_of_nat 47.
Definition colon : Ascii.ascii := Ascii.ascii_of_nat 58.

(** [NewEntryCaller] *)
Definition NewEntryCaller (pc : Z) (file : string) (line : Z) (ok : bool) : EntryCaller :=
  if negb ok then noCaller
  else mkEntryCaller true pc file line "".

(** [EntryCaller.FullPath]; the pooled buffer it writes to is released
    before it returns. *)
Definition EntryCaller_FullPath (ec : EntryCaller) : string :=
  if negb (Defined ec) then "undefined"
  else
    let buf := bufferpool_Get in
    let buf := Buffer_AppendString buf (File ec) in
    let buf := Buffer_AppendByte buf colon in
    let buf := Buffer_AppendInt buf (Line ec) in
    Buffer_String buf.

(** [EntryCaller.String] *)
Definition EntryCaller_String (ec : EntryCaller) : string := EntryCaller_FullPath ec.

(** [EntryCaller.TrimmedPath] *)
Definition EntryCaller_TrimmedPath (ec : EntryCaller) : string :=
  if negb (Defined ec) then "undefined"
  else
    let idx := strings_LastIndexByte (File ec) slash in
    if idx =? -1 then EntryCaller_FullPath ec
    else
      let idx := strings_LastIndexByte (sliceTo (File ec) idx) slash in
      if idx =? -1 then EntryCaller_FullPath ec
      else
        let buf := bufferpool_Get in
        let buf := Buffer_AppendString buf (sliceFrom (File ec) (idx + 1)) in
        let buf := Buffer_AppendByte buf colon in
        let buf := Buffer_AppendInt buf (Line ec) in
        Buffer_String buf.

(** Whether a byte occurs in a string. *)
Fixpoint containsByte (s : string) (c : Ascii.ascii) : bool :=
  match s with
  | EmptyString => false
  | String a s' => Ascii.eqb a c || containsByte s' c
  end.

(* ================================================================== *)
(** ** Write syncers (zapcore/write_syncer.go) *)

(** The [WriteSyncer] implementations: one from outside the package such
    as [*os.File], with the byte count and error its [Write] answers and
    the error of its [Sync]; an [io.Writer] wrapped by [AddSync]; a locked
    syncer; a multi syncer. *)
#[local] Unset Elimination Schemes.
Inductive Sink :=
| fileSyncer (name : string) (write : string -> Z * error) (sync : error)
| writerWrapper (name : string) (write : string -> Z * error)
| lockedWriteSyncer (ws : Sink)
| multiWriteSyncer (ws : list Sink).
#[local] Set Elimination Schemes.

(** An [io.Writer]: a plain writer, or a value that is a [WriteSyncer]
    already. *)
Inductive Writer :=
| plainWriter (name : string) (write : string -> Z * error)
| syncerWriter (ws : Sink).

(** [AddSync] *)
Definition AddSync (w : Writer) : Sink :=
  match w with
  | syncerWriter ws => ws
  | plainWriter name write => writerWrapper name write
  end.

(** [Lock] *)
Definition Lock (ws : Sink) : Sink :=
  match ws with
  | lockedWriteSyncer _ => ws
  | _ => lockedWriteSyncer ws
  end.

(** [NewMultiWriteSyncer] *)
Definition NewMultiWriteSyncer (ws : list Sink) : Sink :=
  match ws with
  | [w] => w
  | _ => multiWriteSyncer ws
  end.

(** One step of the loop of [multiWriteSyncer.Write] on the byte count. *)
Definition nextWritten (nWritten n : Z) : Z :=
  if (nWritten =? 0) && negb (n =? 0) then n
  else if n <? nWritten then n
  else nWritten.

(** [multiWriteSyncer.Write] *)
Definition multiWriteSyncer_Write (Write : Sink -> string -> W (Z * error))
  (ws : list Sink) (p : string) : W (Z * error) :=
  forRange
    (fun w (st : Z * error) =>
       let '(nWritten, writeErr) := st in
       wbind (Write w p)
         (fun r => let '(n, err) := r in
                   wret (nextWritten nWritten n, multierr_Append writeErr err)))
    ws (0, []).

(** [multiWriteSyncer.Sync] *)
Definition multiWriteSyncer_Sync (Sync : Sink -> W error) (ws : list Sink) : W error :=
  forRange (fun w err => wbind (Sync w) (fun e => wret (multierr_Append err e))) ws [].

(** [Write] on a syncer; the lock of a locked syncer is taken and released
    around the call. *)
Fixpoint Sink_Write (s : Sink) (p : string) : W (Z * error) :=
  match s with
  | fileSyncer name write _ => (write p, [EvSinkWrite name (Bytes p)])
  | writerWrapper name write => (write p, [EvSinkWrite name (Bytes p)])
  | lockedWriteSyncer ws => Sink_Write ws p
  | multiWriteSyncer ws => multiWriteSyncer_Write Sink_Write ws p
  end.

(** [Sync] on a syncer; [writerWrapper.Sync] does nothing. *)
Fixpoint Sink_Sync (s : Sink) : W error :=
  match s with
  | fileSyncer name _ sync => (sync, [EvSinkSync name])
  | writerWrapper _ _ => wret []
  | lockedWriteSyncer ws => Sink_Sync ws
  | multiWriteSyncer ws => multiWriteSyncer_Sync Sink_Sync ws
  end.

Local Close Scope state_scope.

(* ================================================================== *)
(** ** Sample values *)

(** No [AtomicLevel] was ever stored to: every cell holds [InfoLevel]. *)
Definition noAtomics : nat -> Z := fun _ => 0.

Definition discard : WriteSyncer := mkWriteSyncer "discard" (fun _ => []) [].

Definition brokenSink : WriteSyncer :=
  mkWriteSyncer "broken" (fun _ => ["short write"]) [].

Definition messageEncoder : Encoder :=
  mkEncoder "message" [] (fun _ ent _ => Encoded (entMessage ent)).

Definition fatalEntry : Entry := mkEntry FatalLevel 0 "" "boom" noCaller "".

Definition infoCore : Core := NewCore messageEncoder discard (StaticLevel InfoLevel).

Definition errorCore : Core := NewCore messageEncoder discard (StaticLevel ErrorLevel).

Definition quietLogger : Logger :=
  mkLogger NewNopCore false false nilHook (ActionHook WriteThenNoop) "" discard
    (StaticLevel (FatalLevel + 1)) 0.

Definition noFrames : Runtime := mkRuntime 0 (fun _ => []).

Definition emptyWorld : World :=
  mkWorld (fun _ => mkCheckedEntry zeroEntry None false nilHook []) 0 [] None [].

Definition infoEntry : Entry := mkEntry InfoLevel 0 "" "hello" noCaller "".

Definition observerLogger : Logger :=
  mkLogger (observer_New (StaticLevel InfoLevel) 0) false false nilHook nilHook "svc"
    discard (StaticLevel (FatalLevel + 1)) 0.

Definition fiveBytes : Sink := fileSyncer "five" (fun _ => (5, [])) [].

Definition threeBytes : Sink := fileSyncer "three" (fun _ => (3, ["short write"])) [].

(* ================================================================== *)
(** * Properties *)

(** ** Levels and errors *)

Lemma multierr_Append_app (l r : error) : multierr_Append l r = l ++ r.
Proof.
  destruct l as [| a l]; destruct r as [| b r]; simpl; trivial.
  now rewrite app_nil_r.
Qed.

Lemma multierr_Append_nil (l r : error) :
  multierr_Append l r = [] <-> l = [] /\ r = [].
Proof.
  rewrite multierr_Append_app. split.
  - apply app_eq_nil.
  - intros [-> ->]. reflexivity.
Qed.

(** The probing loop, started at [lvl] with enough fuel to pass
    [_maxLevel], returns the least enabled level from [lvl] on, and
    [InvalidLevel] when there is none. *)
Lemma probeUp_spec (enabled : Level -> bool) (fuel : nat) :
  forall lvl,
    _maxLevel < lvl + Z.of_nat fuel ->
    (exists l, lvl <= l <= _maxLevel /\ enabled l = true /\
               (forall l', lvl <= l' < l -> enabled l' = false) /\
               probeUp fuel lvl enabled = l)
    \/ ((forall l, lvl <= l <= _maxLevel -> enabled l = false) /\
        probeUp fuel lvl enabled = InvalidLevel).
Proof.
  induction fuel as [| fuel IH]; intros lvl Hfuel.
  - right. split; [| reflexivity]. intros l Hl. cbn in Hfuel. lia.
  - cbn [probeUp]. destruct (Z.leb_spec lvl _maxLevel) as [Hle | Hgt].
    + destruct (enabled lvl) eqn:E.
      * left. exists lvl. repeat split; trivial; lia.
      * destruct (IH (lvl + 1)) as [[l [Hl [He [Hmin Hp]]]] | [Hnone Hp]];
          [lia | |].
        -- left. exists l. repeat split; trivial; try lia.
           intros l' Hl'. destruct (Z.eq_dec l' lvl) as [-> |]; trivial.
           apply Hmin. lia.
        -- right. split; trivial.
           intros l Hl. destruct (Z.eq_dec l lvl) as [-> |]; trivial.
           apply Hnone. lia.
    + right. split; [| reflexivity]. intros l Hl. lia.
Qed.

Lemma probe_spec (enabled : Level -> bool) :
  (exists l, _minLevel <= l <= _maxLevel /\ enabled l = true /\
             (forall l', _minLevel <= l' < l -> enabled l' = false) /\
             probe enabled = l)
  \/ ((forall l, _minLevel <= l <= _maxLevel -> enabled l = false) /\
      probe enabled = InvalidLevel).
Proof.
  apply (probeUp_spec enabled 8 _minLevel). reflexivity.
Qed.

Section LevelProperties.
Variable load : nat -> Z.

(** C8. [LevelOf] on an enabler that has a [Level] method returns what
    that method reports; on any other enabler it returns the least level
    of [Debug .. Fatal] that the enabler enables, and [InvalidLevel] when
    it enables none of them. *)
Theorem LevelOf_reports_or_probes (enab : LevelEnabler) :
  match Level_method load enab with
  | Some lvl => leveledEnabler enab = true /\ LevelOf load enab = lvl
  | None =>
      leveledEnabler enab = false /\
      ((exists l, _minLevel <= l <= _maxLevel /\
                  Enabled load enab l = true /\
                  (forall l', _minLevel <= l' < l -> Enabled load enab l' = false) /\
                  LevelOf load enab = l)
       \/ ((forall l, _minLevel <= l <= _maxLevel -> Enabled load enab l = false) /\
           LevelOf load enab = InvalidLevel))
  end.
Proof.
  destruct enab as [t | f | a | c]; simpl.
  - split; trivial. apply (probe_spec (Level_Enabled t)).
  - split; trivial. apply (probe_spec f).
  - split; reflexivity.
  - destruct c; simpl; try (split; reflexivity).
    split; trivial. apply (probe_spec (fun _ => false)).
Qed.

(** The refusal loop, started at [l] with enough fuel to pass
    [_minLevel], finds a level exactly when one level from [l] down is
    enabled by the new enabler and not by the core. *)
Lemma firstWidened_down (core : Core) (level : LevelEnabler) (fuel : nat) :
  forall l,
    l - Z.of_nat fuel < _minLevel ->
    match firstWidened load fuel l core level with
    | Some x =>
        _minLevel <= x <= l /\
        Core_Enabled load core x = false /\ Enabled load level x = true
    | None =>
        forall x, _minLevel <= x <= l ->
                  negb (Core_Enabled load core x) && Enabled load level x = false
    end.
Proof.
  induction fuel as [| fuel IH]; intros l Hfuel.
  - cbn in *. intros x Hx. lia.
  - cbn [firstWidened]. destruct (Z.geb_spec l _minLevel) as [Hge | Hlt].
    + destruct (negb (Core_Enabled load core l) && Enabled load level l) eqn:E.
      * apply andb_true_iff in E as [E1 E2]. apply negb_true_iff in E1.
        repeat split; trivial; lia.
      * specialize (IH (l - 1)).
        destruct (firstWidened load fuel (l - 1) core level) as [x |].
        -- destruct IH as [Hx Hbad]; [lia |]. split; [lia | assumption].
        -- intros x Hx. destruct (Z.eq_dec x l) as [-> |]; trivial.
           apply IH; lia.
    + intros x Hx. lia.
Qed.

Lemma firstWidened_spec (core : Core) (level : LevelEnabler) :
  match firstWidened load 8 _maxLevel core level with
  | Some l =>
      _minLevel <= l <= _maxLevel /\
      Core_Enabled load core l = false /\ Enabled load level l = true
  | None =>
      forall l, _minLevel <= l <= _maxLevel ->
                negb (Core_Enabled load core l) && Enabled load level l = false
  end.
Proof.
  apply (firstWidened_down core level 8 _maxLevel). reflexivity.
Qed.

(** C1. [NewIncreaseLevelCore] returns an error exactly when some level
    of [Debug .. Fatal] is enabled by [level] and not by [core]; with the
    error it returns no core, and without it a core that enables exactly
    the levels that [level] enables. *)
Theorem NewIncreaseLevelCore_error_iff (core : Core) (level : LevelEnabler) :
  (snd (NewIncreaseLevelCore load core level) <> [] <->
   exists l, _minLevel <= l <= _maxLevel /\
             Core_Enabled load core l = false /\ Enabled load level l = true)
  /\ match NewIncreaseLevelCore load core level with
     | (None, err) => err <> []
     | (Some c, err) =>
         err = [] /\ forall l, Core_Enabled load c l = Enabled load level l
     end.
Proof.
  pose proof (firstWidened_spec core level) as H.
  unfold NewIncreaseLevelCore.
  destruct (firstWidened load 8 _maxLevel core level) as [l |]; cbn [fst snd].
  - split; [| discriminate]. split.
    + intros _. now exists l.
    + intros _. discriminate.
  - split; [| split; reflexivity]. split.
    + intros C. now contradiction C.
    + intros [l [Hl [Hc He]]]. specialize (H l Hl).
      rewrite Hc, He in H. discriminate.
Qed.

(** C10. [With] on a core built by a successful [NewIncreaseLevelCore]
    is again a level filter with the same enabler around the wrapped
    core's [With], so it enables the same levels as before. *)
Theorem levelFilterCore_With_keeps_level
  (core : Core) (level : LevelEnabler) (c : Core) (fields : list Field) :
  NewIncreaseLevelCore load core level = (Some c, []) ->
  Core_With c fields = levelFilterCore (Core_With core fields) level /\
  forall l, Core_Enabled load (Core_With c fields) l = Core_Enabled load c l.
Proof.
  unfold NewIncreaseLevelCore.
  destruct (firstWidened load 8 _maxLevel core level); [discriminate |].
  intros H. injection H as <-. split; reflexivity.
Qed.
End LevelProperties.

(** ** The tee *)

(** C9. [NewTee] of no core is the no-op core, which enables nothing and
    whose [Write] and [Sync] return nil without doing anything; [NewTee] of
    one core is that core; only two cores or more are wrapped in a
    [multiCore]. *)
Theorem NewTee_by_arity :
  NewTee [] = NewNopCore
  /\ (forall load l, Core_Enabled load (NewTee []) l = false)
  /\ (forall ent fields, Core_Write (NewTee []) ent fields = ([], []))
  /\ Core_Sync (NewTee []) = ([], [])
  /\ (forall c, NewTee [c] = c)
  /\ (forall c1 c2 cs, NewTee (c1 :: c2 :: cs) = multiCore (c1 :: c2 :: cs)).
Proof.
  repeat split.
Qed.

Section TeeProperties.
Variable load : nat -> Z.

(** [multiCore.Enabled] is the disjunction of its children's. *)
Lemma multiCore_Enabled_existsb (mc : list Core) (l : Level) :
  Core_Enabled load (multiCore mc) l = existsb (fun c => Core_Enabled load c l) mc.
Proof.
  reflexivity.
Qed.

Lemma multiCore_Level_loop (cs : list Core) (m : Level) :
  (fix loop (cs : list Core) (minLvl : Level) : Level :=
     match cs with
     | [] => minLvl
     | c :: cs' =>
         let lvl := Core_LevelOf load c in
         if lvl <? minLvl then loop cs' lvl else loop cs' minLvl
     end) cs m
  = minLevel m (m :: map (Core_LevelOf load) cs).
Proof.
  unfold minLevel.
  revert m. induction cs as [| c cs IH]; intros m; [reflexivity |].
  cbn zeta. cbn [map fold_left].
  destruct (Z.ltb_spec (Core_LevelOf load c) m) as [Hlt | Hge]; rewrite IH.
  - now rewrite Z.min_r by lia.
  - now rewrite Z.min_l by lia.
Qed.

(** [multiCore.Level] is the least of [Fatal] and its children's
    levels. *)
Lemma multiCore_Level_clamped (mc : list Core) :
  Core_LevelOf load (multiCore mc)
  = minLevel _maxLevel (_maxLevel :: map (Core_LevelOf load) mc).
Proof.
  simpl Core_LevelOf. unfold multiCore_Level. apply multiCore_Level_loop.
Qed.

(** C3, evaluated on a tee of two no-op cores: the tee enables no
    level, as the disjunction of its children's [Enabled] says; each
    child's level is [InvalidLevel], and so is their minimum, yet the
    tee's [Level] is [FatalLevel]. *)
Theorem multiCore_Level_of_disabled_children :
  let tee := NewTee [NewNopCore; NewNopCore] in
  (forall l, Core_Enabled load tee l
             = Core_Enabled load NewNopCore l || Core_Enabled load NewNopCore l)
  /\ minLevel InvalidLevel
       (map (fun c => LevelOf load (CoreEnabler c)) [NewNopCore; NewNopCore])
     = InvalidLevel
  /\ LevelOf load (CoreEnabler tee) = FatalLevel
  /\ FatalLevel <> InvalidLevel.
Proof.
  repeat split. discriminate.
Qed.
End TeeProperties.

(** ** [Write] and [Sync] *)

(** A loop that appends the error of each step runs every step: its
    events are those of all the steps in order and its error collects
    all their errors. *)
Lemma forRange_collect {A : Type} (f : A -> W error) (xs : list A) (acc : error) :
  forRange (fun x err => wbind (f x) (fun e => wret (multierr_Append err e))) xs acc
  = (acc ++ List.concat (map (fun x => fst (f x)) xs),
     List.concat (map (fun x => snd (f x)) xs)).
Proof.
  revert acc. induction xs as [| x xs IH]; intros acc; simpl.
  - unfold wret. now rewrite app_nil_r.
  - unfold wbind at 1. destruct (f x) as [e t]. simpl.
    rewrite IH, multierr_Append_app, app_nil_r, app_assoc. reflexivity.
Qed.

Lemma concat_eq_nil {A : Type} (ls : list (list A)) :
  List.concat ls = [] <-> forall l, In l ls -> l = [].
Proof.
  induction ls as [| l ls IH]; simpl.
  - split; [intros _ l [] | trivial].
  - split.
    + intros H. apply app_eq_nil in H as [-> H]. intros l' [<- | Hin]; trivial.
      now apply IH.
    + intros H. rewrite (H l) by now left. simpl. apply IH.
      intros l' Hin. apply H. now right.
Qed.

Lemma collected_nil {A : Type} (f : A -> error) (xs : list A) :
  List.concat (map f xs) = [] <-> forall x, In x xs -> f x = [].
Proof.
  rewrite concat_eq_nil. split.
  - intros H x Hin. apply H. now apply in_map.
  - intros H l Hin. apply in_map_iff in Hin as [x [<- Hx]]. now apply H.
Qed.

(** C4. [multiCore.Write] runs the [Write] of every child, in order and
    whatever the earlier children returned; its error collects the errors
    of all children and is nil exactly when every child returned nil.
    [multiCore.Sync] does the same with the children's [Sync]. *)
Theorem multiCore_Write_Sync_aggregate
  (mc : list Core) (ent : Entry) (fields : list Field) :
  (Core_Write (multiCore mc) ent fields
   = (List.concat (map (fun c => fst (Core_Write c ent fields)) mc),
      List.concat (map (fun c => snd (Core_Write c ent fields)) mc)))
  /\ (fst (Core_Write (multiCore mc) ent fields) = [] <->
      forall c, In c mc -> fst (Core_Write c ent fields) = [])
  /\ (Core_Sync (multiCore mc)
      = (List.concat (map (fun c => fst (Core_Sync c)) mc),
         List.concat (map (fun c => snd (Core_Sync c)) mc)))
  /\ (fst (Core_Sync (multiCore mc)) = [] <->
      forall c, In c mc -> fst (Core_Sync c) = []).
Proof.
  assert (HW : Core_Write (multiCore mc) ent fields
               = (List.concat (map (fun c => fst (Core_Write c ent fields)) mc),
                  List.concat (map (fun c => snd (Core_Write c ent fields)) mc))).
  { cbn [Core_Write]. unfold multiCore_Write.
    apply (forRange_collect (fun c => Core_Write c ent fields)). }
  assert (HS : Core_Sync (multiCore mc)
               = (List.concat (map (fun c => fst (Core_Sync c)) mc),
                  List.concat (map (fun c => snd (Core_Sync c)) mc))).
  { cbn [Core_Sync]. unfold multiCore_Sync.
    apply (forRange_collect Core_Sync). }
  repeat split; trivial.
  - rewrite HW. cbn [fst]. apply collected_nil.
  - rewrite HW. cbn [fst]. apply collected_nil.
  - rewrite HS. cbn [fst]. apply collected_nil.
  - rewrite HS. cbn [fst]. apply collected_nil.
Qed.

(** C5, as amended. [ioCore.Write] encodes the entry and the fields; an
    encoding error is returned before anything reaches the sink.
    Otherwise the bytes are written to the sink and the buffer is freed;
    an error of that write is returned and nothing more happens; after a
    successful write [Sync] is called exactly when the level is above
    [ErrorLevel], its error is dropped, and nil is returned. *)
Theorem ioCore_Write_steps
  (enab : LevelEnabler) (enc : Encoder) (out : WriteSyncer)
  (ent : Entry) (fields : list Field) :
  Core_Write (ioCore enab enc out) ent fields
  = match encRender enc (encFields enc) ent fields with
    | EncodeFailed e es =>
        (e :: es, [EvEncode (encName enc) (encFields enc) ent fields])
    | Encoded buf =>
        let written :=
          [EvEncode (encName enc) (encFields enc) ent fields;
           EvSinkWrite (wsName out) (Bytes buf);
           EvBufferFree buf] in
        match wsWrite out (Bytes buf) with
        | [] =>
            ([], written ++
                 (if entLevel ent >? ErrorLevel then [EvSinkSync (wsName out)] else []))
        | e :: es => (e :: es, written)
        end
    end.
Proof.
  cbn [Core_Write]. unfold ioCore_Write, Encoder_EncodeEntry, wbind at 1.
  destruct (encRender enc (encFields enc) ent fields) as [buf | e es]; [| reflexivity].
  unfold WriteSyncer_Write, Buffer_Free, emit, wbind, wret.
  destruct (wsWrite out (Bytes buf)) as [| e es]; cbn [isNil negb]; [| reflexivity].
  now destruct (entLevel ent >? ErrorLevel).
Qed.

(** ** Hooks *)

Section HookProperties.
Variable load : nat -> Z.

(** C6. [hooked.Check] first runs the wrapped core's [Check]; when that
    returns a handle, the hooked core is appended to the cores of that
    handle, which is returned, and nothing else changes; when it returns
    nil, the incoming handle is returned.  [hooked.Write] calls every
    callback once, in registration order, on the entry alone, and
    collects all their errors. *)
Theorem hooked_Check_registers_itself
  (inner : Core) (funcs : list Hook) (ent : Entry) (ce : option nat) (w : World) :
  let h := RegisterHooks inner funcs in
  h = hooked inner funcs
  /\ match Core_Check load inner ent ce w with
     | (Some d, w1) =>
         exists w2,
           Core_Check load h ent ce w = (Some d, w2)
           /\ cores (heap w2 d) = cores (heap w1 d) ++ [h]
           /\ heap w2 d = set_cores (cores (heap w1 d) ++ [h]) (heap w1 d)
           /\ (forall q, q <> d -> heap w2 q = heap w1 q)
           /\ trace w2 = trace w1 /\ _cePool w2 = _cePool w1 /\ brk w2 = brk w1
     | (None, w1) => Core_Check load h ent ce w = (ce, w1)
     end
  /\ forall fields,
       Core_Write h ent fields
       = (List.concat (map (fun f => hookRun f ent) funcs),
          map (fun f => EvHook (hookName f) ent) funcs).
Proof.
  cbv zeta. unfold RegisterHooks. cbn [app]. split; [reflexivity |]. split.
  - cbn [Core_Check]. unfold hooked_Check, bind.
    destruct (Core_Check load inner ent ce w) as [[d |] w1]; [| reflexivity].
    eexists. split; [reflexivity |].
    unfold CheckedEntry_AddCore, bind, ret, deref, update. cbn.
    rewrite Nat.eqb_refl. repeat split.
    intros q Hq. apply Nat.eqb_neq in Hq. now rewrite Hq.
  - intros fields. cbn [Core_Write]. unfold hooked_Write.
    rewrite (forRange_collect (fun f => Hook_call f ent)). cbn [app]. f_equal.
    induction funcs as [| f fs IH]; [reflexivity |].
    cbn [map List.concat]. rewrite IH. reflexivity.
Qed.
End HookProperties.

(** ** Checked entries *)

Ltac run :=
  unfold bind, ret, deref, update, liftW, report, putCheckedEntry, _cePool_Put,
    WriteSyncer_Write, WriteSyncer_Sync, emit;
  cbn [fst snd heap brk _cePool _exit trace
       ceEntry ErrorOutput dirty after cores
       set_Entry set_ErrorOutput set_dirty set_after set_cores].

Lemma getCheckedEntry_fresh (w : World) :
  exists p w',
    getCheckedEntry w = (p, w')
    /\ heap w' p = mkCheckedEntry zeroEntry None false nilHook []
    /\ trace w' = trace w.
Proof.
  unfold getCheckedEntry, CheckedEntry_reset, _cePool_Get. run.
  destruct (_cePool w) as [| p rest]; do 2 eexists; (split; [reflexivity |]); run;
    rewrite !Nat.eqb_refl; split; reflexivity.
Qed.

Lemma acquire_state (ce : option nat) (ent : Entry) (w : World) :
  exists p w',
    match ce with
    | None => bind getCheckedEntry (fun p => bind (update p (set_Entry ent)) (fun _ => ret p))
    | Some p => ret p
    end w = (p, w')
    /\ match ce with
       | None => heap w' p = mkCheckedEntry ent None false nilHook []
       | Some q => p = q /\ w' = w
       end
    /\ trace w' = trace w.
Proof.
  destruct ce as [q |].
  - exists q, w. repeat split.
  - destruct (getCheckedEntry_fresh w) as [p [w' [E [Hh Ht]]]].
    unfold bind at 1. rewrite E. run. do 2 eexists. split; [reflexivity |]. run.
    rewrite Nat.eqb_refl, Hh. split; [reflexivity | assumption].
Qed.

Lemma AddCore_state (ce : option nat) (ent : Entry) (c : Core) (w : World) :
  exists p w',
    CheckedEntry_AddCore ce ent c w = (p, w')
    /\ match ce with
       | None => heap w' p = mkCheckedEntry ent None false nilHook [c]
       | Some q => p = q /\ heap w' p = set_cores (cores (heap w q) ++ [c]) (heap w q)
       end
    /\ trace w' = trace w.
Proof.
  destruct (acquire_state ce ent w) as [p [w' [E [Hh Ht]]]].
  unfold CheckedEntry_AddCore. unfold bind at 1. rewrite E. run.
  do 2 eexists. split; [reflexivity |]. run. rewrite Nat.eqb_refl.
  destruct ce as [q |].
  - destruct Hh as [-> ->]. repeat split.
  - rewrite Hh. split; [reflexivity | assumption].
Qed.

Lemma After_state (ce : option nat) (ent : Entry) (hook : CheckWriteHook) (w : World) :
  exists p w',
    CheckedEntry_After ce ent hook w = (p, w')
    /\ match ce with
       | None => heap w' p = mkCheckedEntry ent None false hook []
       | Some q => p = q /\ heap w' p = set_after hook (heap w q)
       end
    /\ trace w' = trace w.
Proof.
  destruct (acquire_state ce ent w) as [p [w' [E [Hh Ht]]]].
  unfold CheckedEntry_After. unfold bind at 1. rewrite E. run.
  do 2 eexists. split; [reflexivity |]. run. rewrite Nat.eqb_refl.
  destruct ce as [q |].
  - destruct Hh as [-> ->]. repeat split.
  - rewrite Hh. split; [reflexivity | assumption].
Qed.

Lemma applyOps_state (ops : list CEOp) (p : nat) (w : World) :
  exists w',
    applyOps ops p w = (p, w')
    /\ heap w' p
       = mkCheckedEntry (ceEntry (heap w p))
           (lastOutput (ErrorOutput (heap w p)) ops)
           (dirty (heap w p))
           (lastHook (after (heap w p)) ops)
           (cores (heap w p) ++ addedCores ops)
    /\ trace w' = trace w.
Proof.
  revert w. induction ops as [| op ops IH]; intros w.
  - exists w. cbn. rewrite app_nil_r. now destruct (heap w p).
  - cbn [applyOps]. unfold bind at 1. destruct op as [ent c | ent hook | ws].
    + cbn [applyOp].
      destruct (AddCore_state (Some p) ent c w) as [q [w1 [E [[-> Hh] Ht]]]].
      rewrite E. destruct (IH w1) as [w2 [E2 [Hh2 Ht2]]].
      exists w2. split; [assumption |]. rewrite Hh2, Hh, Ht2, Ht. cbn.
      now rewrite <- app_assoc.
    + cbn [applyOp].
      destruct (After_state (Some p) ent hook w) as [q [w1 [E [[-> Hh] Ht]]]].
      rewrite E. destruct (IH w1) as [w2 [E2 [Hh2 Ht2]]].
      exists w2. split; [assumption |]. rewrite Hh2, Hh, Ht2, Ht. now cbn.
    + cbn [applyOp]. run.
      match goal with |- context [applyOps ops p ?w1] =>
        destruct (IH w1) as [w2 [E2 [Hh2 Ht2]]] end.
      exists w2. split; [assumption |]. rewrite Hh2, Ht2. run.
      rewrite Nat.eqb_refl. now cbn.
Qed.

Lemma obtain_state (ent : Entry) (first : Core + CheckWriteHook) (ops : list CEOp)
  (w : World) :
  exists p w',
    obtain ent first ops w = (p, w')
    /\ heap w' p
       = mkCheckedEntry ent (lastOutput None ops) false
           (lastHook (match first with inl _ => nilHook | inr hook => hook end) ops)
           (accumulated first ops).
Proof.
  unfold obtain. unfold bind at 1. destruct first as [c | hook].
  - destruct (AddCore_state None ent c w) as [p [w1 [E [Hh _]]]]. rewrite E.
    destruct (applyOps_state ops p w1) as [w2 [E2 [Hh2 _]]].
    exists p, w2. split; [assumption |]. rewrite Hh2, Hh. reflexivity.
  - destruct (After_state None ent hook w) as [p [w1 [E [Hh _]]]]. rewrite E.
    destruct (applyOps_state ops p w1) as [w2 [E2 [Hh2 _]]].
    exists p, w2. split; [assumption |]. rewrite Hh2, Hh. reflexivity.
Qed.

Lemma writeCores_collect (cs : list Core) (ent : Entry) (fields : list Field) :
  writeCores cs ent fields
  = (List.concat (map (fun c => fst (Core_Write c ent fields)) cs),
     List.concat (map (fun c => snd (Core_Write c ent fields)) cs)).
Proof.
  unfold writeCores. apply (forRange_collect (fun c => Core_Write c ent fields)).
Qed.

(** Writing a handle whose [dirty] flag is set only prints the
    diagnostic. *)
Lemma CheckedEntry_Write_dirty (p : nat) (fields : list Field) (w : World) :
  dirty (heap w p) = true ->
  exists w',
    CheckedEntry_Write (Some p) fields w = (Returned, w')
    /\ trace w' = trace w ++ reuseReport (ErrorOutput (heap w p)) (ceEntry (heap w p))
    /\ heap w' = heap w /\ _cePool w' = _cePool w
    /\ brk w' = brk w /\ _exit w' = _exit w.
Proof.
  intros Hd. unfold CheckedEntry_Write. run. rewrite Hd.
  destruct (ErrorOutput (heap w p)) as [ws |]; run.
  - eexists. split; [reflexivity |]. run. rewrite <- app_assoc. repeat split.
  - exists w. rewrite app_nil_r. repeat split.
Qed.

(** Writing a handle whose [dirty] flag is clear sets the flag and runs
    the cores, the error report and the hook. *)
Lemma CheckedEntry_Write_clean (p : nat) (fields : list Field) (w : World) :
  dirty (heap w p) = false ->
  let o := heap w p in
  exists r w',
    CheckedEntry_Write (Some p) fields w = (r, w')
    /\ trace w'
       = trace w
         ++ List.concat (map (fun c => snd (Core_Write c (ceEntry o) fields)) (cores o))
         ++ errorReport (ErrorOutput o) (ceEntry o)
              (List.concat (map (fun c => fst (Core_Write c (ceEntry o) fields)) (cores o)))
         ++ hookEvents (after o) p fields
    /\ heap w' p = set_dirty true o.
Proof.
  intros Hd o. subst o. unfold CheckedEntry_Write. run.
  destruct (heap w p) as [ent out d hook cs] eqn:Ho. cbn in Hd. subst d.
  run. rewrite writeCores_collect. cbn [fst snd].
  set (err := List.concat (map (fun c => fst (Core_Write c ent fields)) cs)).
  set (evs := List.concat (map (fun c => snd (Core_Write c ent fields)) cs)).
  unfold CheckWriteHook_OnWrite, CheckWriteAction_OnWrite, exit_With.
  destruct err as [| e es]; destruct out as [ws |]; cbn [isNil negb errorReport];
    run; rewrite ?Nat.eqb_refl, ?Ho; run;
    (destruct hook as [| a | name];
     [ | destruct (a =? WriteThenGoexit);
         [| destruct (a =? WriteThenPanic);
            [| destruct (a =? WriteThenFatal); [destruct (_exit w) |]]] | ]);
    run; rewrite ?Nat.eqb_refl, ?Ho; run;
    do 2 eexists; (split; [reflexivity |]); run; rewrite ?Nat.eqb_refl, ?Ho;
    cbn [hookEvents]; rewrite ?app_nil_r, <- ?app_assoc; split; reflexivity.
Qed.

(** C2. A handle obtained by [AddCore] or [After] on a nil handle, and
    possibly used further, holds the accumulated cores and the entry it
    was obtained for.  Its first [Write] runs the [Write] of each
    accumulated core once, in order, on that entry and the given fields,
    before the error report and the hook.  A second [Write] on the same
    handle returns normally, runs no core, leaves the checked entries as
    they are and prints the re-use diagnostic on the error output when one
    is configured, and nothing otherwise. *)
Theorem CheckedEntry_Write_twice
  (w : World) (ent : Entry) (first : Core + CheckWriteHook) (ops : list CEOp)
  (fields fields' : list Field) :
  let '(p, w1) := obtain ent first ops w in
  let '(r1, w2) := CheckedEntry_Write (Some p) fields w1 in
  let '(r2, w3) := CheckedEntry_Write (Some p) fields' w2 in
  let cs := accumulated first ops in
  let out := lastOutput None ops in
  let hook := lastHook (match first with inl _ => nilHook | inr h => h end) ops in
  cores (heap w1 p) = cs
  /\ ceEntry (heap w1 p) = ent
  /\ ErrorOutput (heap w1 p) = out
  /\ trace w2
     = trace w1
       ++ List.concat (map (fun c => snd (Core_Write c ent fields)) cs)
       ++ errorReport out ent
            (List.concat (map (fun c => fst (Core_Write c ent fields)) cs))
       ++ hookEvents hook p fields
  /\ r2 = Returned
  /\ trace w3 = trace w2 ++ reuseReport out ent
  /\ heap w3 = heap w2.
Proof.
  destruct (obtain_state ent first ops w) as [p [w1 [E1 H1]]]. rewrite E1.
  assert (Hd : dirty (heap w1 p) = false) by now rewrite H1.
  destruct (CheckedEntry_Write_clean p fields w1 Hd) as [r1 [w2 [E2 [Ht2 Hh2]]]].
  rewrite E2.
  assert (Hd2 : dirty (heap w2 p) = true) by now rewrite Hh2.
  destruct (CheckedEntry_Write_dirty p fields' w2 Hd2) as [w3 [E3 [Ht3 [Hh3 _]]]].
  rewrite E3. cbv zeta.
  rewrite Ht3, Ht2, Hh2, H1. cbn. repeat split; assumption.
Qed.

Section LoggerProperties.
Variable load : nat -> Z.

(** The annotations of [Logger.check] keep the hook of the handle. *)
Lemma annotate_keeps_after (log : Logger) (rt : Runtime) (ent : Entry) (p : nat)
  (w : World) :
  exists w',
    annotate load log rt ent p w = (Some p, w')
    /\ after (heap w' p) = after (heap w p).
Proof.
  unfold annotate. run. rewrite !Nat.eqb_refl. run.
  destruct (negb (addCaller log) &&
            negb (Enabled load (addStack log) (entLevel (ceEntry (heap w p)))));
    [eexists; split; [reflexivity |]; run; now rewrite Nat.eqb_refl |].
  destruct (stacktrace_Capture rt (callerSkip log + callerSkipOffset)
              (Enabled load (addStack log) (entLevel (ceEntry (heap w p)))))
    as [| frame rest].
  - destruct (addCaller log); run;
      (eexists; split; [reflexivity |]); run; now rewrite Nat.eqb_refl.
  - destruct (addCaller log);
      destruct (Enabled load (addStack log) (entLevel (ceEntry (heap w p))));
      run; (eexists; split; [reflexivity |]); run; now rewrite !Nat.eqb_refl.
Qed.

(** C7. For every pair of hooks, [terminalHookOverride] returns the
    override when it is neither nil nor [WriteThenNoop] and the default
    otherwise.  On a Panic or Fatal entry, and on a DPanic entry of a
    logger in development mode, [Logger.check] returns a handle whose hook
    is [terminalHookOverride] of the default action ([WriteThenPanic], or
    [WriteThenFatal] for Fatal) and the logger's override: it is the
    override exactly when the override is neither nil nor [WriteThenNoop],
    and the default action otherwise. *)
Theorem Logger_check_terminal_hook
  (log : Logger) (rt : Runtime) (lvl : Level) (msg : string) (w : World) :
  lvl = PanicLevel \/ lvl = FatalLevel \/
  (lvl = DPanicLevel /\ development log = true) ->
  let defaultHook :=
    if lvl =? FatalLevel then ActionHook WriteThenFatal
    else ActionHook WriteThenPanic in
  let override := if lvl =? FatalLevel then onFatal log else onPanic log in
  (forall d o,
     (o <> nilHook -> o <> ActionHook WriteThenNoop -> terminalHookOverride d o = o)
     /\ (o = nilHook \/ o = ActionHook WriteThenNoop -> terminalHookOverride d o = d))
  /\ exists p w',
       Logger_check load log rt lvl msg w = (Some p, w')
       /\ after (heap w' p) = terminalHookOverride defaultHook override
       /\ (after (heap w' p) = override <->
           override <> nilHook /\ override <> ActionHook WriteThenNoop)
       /\ (override = nilHook \/ override = ActionHook WriteThenNoop ->
           after (heap w' p) = defaultHook).
Proof.
  intros Hl defaultHook override.
  assert (Hterm : forall d o,
    (o <> nilHook -> o <> ActionHook WriteThenNoop -> terminalHookOverride d o = o)
    /\ (o = nilHook \/ o = ActionHook WriteThenNoop -> terminalHookOverride d o = d)).
  { intros d o. split.
    - intros Hn Ha. destruct o as [| a | n]; cbn; trivial.
      + now contradiction Hn.
      + destruct (Z.eqb_spec a WriteThenNoop) as [-> |]; trivial.
        now contradiction Ha.
    - intros [-> | ->]; reflexivity. }
  split; [exact Hterm |].
  assert (Hdef : defaultHook <> nilHook /\ defaultHook <> ActionHook WriteThenNoop).
  { subst defaultHook. destruct (lvl =? FatalLevel); split; discriminate. }
  assert (Hcheck : exists p w',
            Logger_check load log rt lvl msg w = (Some p, w')
            /\ after (heap w' p) = terminalHookOverride defaultHook override).
  { unfold Logger_check.
    assert (Hlt : (lvl <? DPanicLevel) = false).
    { apply Z.ltb_ge. unfold DPanicLevel, PanicLevel, FatalLevel in *. lia. }
    rewrite Hlt. cbn [andb entLevel]. unfold bind at 1.
    destruct (Core_Check load (core log)
                (mkEntry lvl (Now rt) (name log) msg noCaller "") None w)
      as [ce w1].
    subst defaultHook override.
    destruct Hl as [-> | [-> | [-> Hdev]]];
      cbn [Z.eqb PanicLevel FatalLevel DPanicLevel Pos.eqb]; rewrite ?Hdev;
      match goal with |- context [CheckedEntry_After ce ?e ?h] =>
        destruct (After_state ce e h w1) as [p [w2 [E [Hh _]]]];
        destruct (annotate_keeps_after log rt e p w2) as [w3 [E3 H3]]
      end;
      unfold bind, ret; rewrite E;
      (destruct ce as [q |]; cbn [negb];
       [ destruct Hh as [-> Hh]; rewrite E3; exists q, w3;
         split; [reflexivity |]; rewrite H3, Hh; reflexivity
       | exists p, w2; split; [reflexivity |]; rewrite Hh; reflexivity ]). }
  destruct Hcheck as [p [w' [E Hh]]]. exists p, w'.
  split; [assumption |]. split; [assumption |].
  rewrite Hh. destruct (Hterm defaultHook override) as [Hover Hkeep]. split.
  - split.
    + intros Heq. split.
      * intros Hnil. rewrite Hkeep in Heq by now left. rewrite Hnil in Heq.
        now apply (proj1 Hdef).
      * intros Hnoop. rewrite Hkeep in Heq by now right. rewrite Hnoop in Heq.
        now apply (proj2 Hdef).
    + intros [Hn Ha]. now apply Hover.
  - exact Hkeep.
Qed.
End LoggerProperties.

(** ** The statements at sample values *)

(** C5 as first read fails on a Fatal entry whose write the sink
    refuses: the error is returned and [Sync] is not called. *)
Lemma ioCore_Write_no_sync_after_failed_write :
  ~ ioCore_Write_syncs_by_level_only messageEncoder brokenSink fatalEntry [].
Proof.
  unfold ioCore_Write_syncs_by_level_only. cbn. discriminate.
Qed.

Lemma levelFilterCore_With_keeps_level_witness :
  NewIncreaseLevelCore noAtomics infoCore (StaticLevel ErrorLevel)
  = (Some (levelFilterCore infoCore (StaticLevel ErrorLevel)), [])
  /\ (Core_With (levelFilterCore infoCore (StaticLevel ErrorLevel)) [mkField "k" "v"]
      = levelFilterCore (Core_With infoCore [mkField "k" "v"]) (StaticLevel ErrorLevel)
      /\ forall l,
           Core_Enabled noAtomics
             (Core_With (levelFilterCore infoCore (StaticLevel ErrorLevel))
                [mkField "k" "v"]) l
           = Core_Enabled noAtomics
               (levelFilterCore infoCore (StaticLevel ErrorLevel)) l).
Proof.
  split; [reflexivity |].
  apply (levelFilterCore_With_keeps_level noAtomics infoCore (StaticLevel ErrorLevel)).
  reflexivity.
Defined.

Lemma Logger_check_terminal_hook_witness :
  (FatalLevel = PanicLevel \/ FatalLevel = FatalLevel \/
   (FatalLevel = DPanicLevel /\ development quietLogger = true))
  /\ (forall d o,
        (o <> nilHook -> o <> ActionHook WriteThenNoop -> terminalHookOverride d o = o)
        /\ (o = nilHook \/ o = ActionHook WriteThenNoop -> terminalHookOverride d o = d))
  /\ exists p w',
       Logger_check noAtomics quietLogger noFrames FatalLevel "bye" emptyWorld
       = (Some p, w')
       /\ after (heap w' p)
          = terminalHookOverride (ActionHook WriteThenFatal) (ActionHook WriteThenNoop)
       /\ (after (heap w' p) = ActionHook WriteThenNoop <->
           ActionHook WriteThenNoop <> nilHook /\
           ActionHook WriteThenNoop <> ActionHook WriteThenNoop)
       /\ (ActionHook WriteThenNoop = nilHook \/
           ActionHook WriteThenNoop = ActionHook WriteThenNoop ->
           after (heap w' p) = ActionHook WriteThenFatal).
Proof.
  split; [right; left; reflexivity |].
  apply (Logger_check_terminal_hook noAtomics quietLogger noFrames FatalLevel "bye"
           emptyWorld).
  right; left; reflexivity.
Defined.

(** The examples of the specification. *)

Example increase_to_warn_refused :
  fst (NewIncreaseLevelCore noAtomics errorCore (StaticLevel WarnLevel)) = None
  /\ snd (NewIncreaseLevelCore noAtomics errorCore (StaticLevel WarnLevel)) <> [].
Proof.
  split; [reflexivity | discriminate].
Qed.

Example increase_to_error_accepted :
  exists c,
    NewIncreaseLevelCore noAtomics infoCore (StaticLevel ErrorLevel) = (Some c, [])
    /\ Core_Enabled noAtomics c ErrorLevel = true
    /\ Core_Enabled noAtomics c WarnLevel = false.
Proof.
  eexists. repeat split.
Qed.

Example atomic_level_follows_store :
  let stored := AtomicLevel_SetLevel noAtomics 0%nat ErrorLevel in
  Enabled noAtomics (AtomicLevel 0) WarnLevel = true
  /\ Enabled stored (AtomicLevel 0) WarnLevel = false
  /\ Enabled stored (AtomicLevel 0) ErrorLevel = true
  /\ LevelOf stored (AtomicLevel 0) = ErrorLevel.
Proof.
  repeat split.
Qed.

Example hooks_all_run :
  let h1 := mkHook "h1" (fun _ => []) in
  let h2 := mkHook "h2" (fun _ => ["E"]) in
  let w := emptyWorld in
  let '(ce, w1) := Core_Check noAtomics (RegisterHooks infoCore [h1; h2]) fatalEntry None w in
  let '(_, w2) := CheckedEntry_Write ce [] w1 in
  Core_Write (RegisterHooks infoCore [h1; h2]) fatalEntry [] 
  = (["E"], [EvHook "h1" fatalEntry; EvHook "h2" fatalEntry])
  /\ trace w2
     = [EvEncode "message" [] fatalEntry [];
        EvSinkWrite "discard" (Bytes "boom");
        EvBufferFree "boom";
        EvSinkSync "discard";
        EvHook "h1" fatalEntry;
        EvHook "h2" fatalEntry].
Proof.
  vm_compute. split; reflexivity.
Qed.

(* ================================================================== *)
(** * Further properties of the sources *)

(** ** Induction over cores *)

(** Structural induction on a core, with the children of a tee handled
    through [Forall]. *)
Lemma Core_induction (P : Core -> Prop) :
  P nopCore ->
  (forall enab enc out, P (ioCore enab enc out)) ->
  (forall mc, Forall P mc -> P (multiCore mc)) ->
  (forall core level, P core -> P (levelFilterCore core level)) ->
  (forall core funcs, P core -> P (hooked core funcs)) ->
  (forall enab logs context, P (contextObserver enab logs context)) ->
  forall c, P c.
Proof.
  intros Hnop Hio Hmulti Hfilter Hhooked Hobs.
  fix IH 1. intros c. destruct c as [| enab enc out | mc | core level | core funcs | enab logs ctx].
  - exact Hnop.
  - apply Hio.
  - apply Hmulti. induction mc as [| c cs IHcs]; constructor; [apply IH | exact IHcs].
  - apply Hfilter, IH.
  - apply Hhooked, IH.
  - apply Hobs.
Qed.

(** ** [With] *)

Section WithProperties.
Variable load : nat -> Z.

(** Stated once more right below; later proofs use this form. *)
Lemma With_levels (c : Core) (fields : list Field) :
  (forall l, Core_Enabled load (Core_With c fields) l = Core_Enabled load c l)
  /\ LevelOf load (CoreEnabler (Core_With c fields)) = LevelOf load (CoreEnabler c).
Proof.
  induction c as [| enab enc out | mc IH | core level IH | core funcs IH | enab logs ctx]
    using Core_induction; cbn [Core_With LevelOf Core_LevelOf Core_Enabled];
    try (split; reflexivity); try exact IH.
  unfold multiCore_With. cbn [Core_Enabled Core_LevelOf]. split.
  - intros l. unfold multiCore_Enabled.
    induction IH as [| c cs [Hc _] _ IHcs]; cbn [map]; [reflexivity |].
    now rewrite Hc, IHcs.
  - unfold multiCore_Level. generalize _maxLevel.
    induction IH as [| c cs [_ Hc] _ IHcs]; intros m; cbn [map]; [reflexivity |].
    cbn [LevelOf] in Hc. cbv zeta. rewrite Hc.
    destruct (Core_LevelOf load c <? m); apply IHcs.
Qed.

(** X1. [With] changes neither the levels a core enables nor the level
    [LevelOf] reports for it. *)
Theorem Core_With_keeps_levels (c : Core) (fields : list Field) :
  (forall l, Core_Enabled load (Core_With c fields) l = Core_Enabled load c l)
  /\ LevelOf load (CoreEnabler (Core_With c fields)) = LevelOf load (CoreEnabler c).
Proof.
  intros. eapply With_levels; eassumption.
Qed.
End WithProperties.

(** X2. Two successive [With] calls give the same core as one call with
    the two field lists appended. *)
Theorem Core_With_With (c : Core) (fields more : list Field) :
  Core_With (Core_With c fields) more = Core_With c (fields ++ more).
Proof.
  induction c as [| enab enc out | mc IH | core level IH | core funcs IH | enab logs ctx]
    using Core_induction; cbn [Core_With].
  - reflexivity.
  - unfold ioCore_With, addFields, Encoder_Clone. cbn. now rewrite app_assoc.
  - unfold multiCore_With. cbn [Core_With]. unfold multiCore_With.
    f_equal. rewrite map_map.
    induction IH as [| c cs Hc _ IHcs]; cbn [map]; [reflexivity |].
    now rewrite Hc, IHcs.
  - now rewrite IH.
  - now rewrite IH.
  - now rewrite app_assoc.
Qed.

(** ** [Check] *)

Lemma appendsCores_refl (w : World) (p : nat) : appendsCores w w p [].
Proof.
  unfold appendsCores. rewrite app_nil_r. repeat split. now destruct (heap w p).
Qed.

Lemma appendsCores_trans (w w1 w2 : World) (p : nat) (a b : list Core) :
  appendsCores w w1 p a -> appendsCores w1 w2 p b -> appendsCores w w2 p (a ++ b).
Proof.
  intros [Hh [Ho [Ht [Hp [Hb He]]]]] [Hh' [Ho' [Ht' [Hp' [Hb' He']]]]].
  unfold appendsCores. rewrite Hh', Hh, Ht', Hp', Hb', He'. cbn.
  rewrite <- app_assoc. repeat split; trivial.
  intros q Hq. rewrite Ho' by assumption. now apply Ho.
Qed.

Lemma AddCore_appends (p : nat) (ent : Entry) (c : Core) (w : World) :
  exists w', CheckedEntry_AddCore (Some p) ent c w = (p, w') /\ appendsCores w w' p [c].
Proof.
  eexists. split; [reflexivity |]. unfold appendsCores. run.
  rewrite Nat.eqb_refl. repeat split.
  intros q Hq. apply Nat.eqb_neq in Hq. now rewrite Hq.
Qed.

Lemma AddCore_nil_fresh (ent : Entry) (c : Core) (w : World) :
  exists p w',
    CheckedEntry_AddCore None ent c w = (p, w')
    /\ heap w' p = mkCheckedEntry ent None false nilHook [c]
    /\ trace w' = trace w /\ _exit w' = _exit w.
Proof.
  unfold CheckedEntry_AddCore, getCheckedEntry, CheckedEntry_reset, _cePool_Get. run.
  destruct (_cePool w) as [| p rest]; do 2 eexists; (split; [reflexivity |]); run;
    rewrite !Nat.eqb_refl; repeat split.
Qed.

Lemma After_nil_fresh (ent : Entry) (hook : CheckWriteHook) (w : World) :
  exists p w',
    CheckedEntry_After None ent hook w = (p, w')
    /\ heap w' p = mkCheckedEntry ent None false hook []
    /\ trace w' = trace w /\ _exit w' = _exit w.
Proof.
  unfold CheckedEntry_After, getCheckedEntry, CheckedEntry_reset, _cePool_Get. run.
  destruct (_cePool w) as [| p rest]; do 2 eexists; (split; [reflexivity |]); run;
    rewrite !Nat.eqb_refl; repeat split.
Qed.

Lemma bind_eq {A B : Type} (m : M A) (k : A -> M B) (w w1 : World) (a : A) :
  m w = (a, w1) -> bind m k w = k a w1.
Proof.
  intros E. unfold bind. now rewrite E.
Qed.

Section CheckProperties.
Variable load : nat -> Z.

(** Stated once more right below; later proofs use this form. *)
Lemma Check_on_handle (c : Core) (ent : Entry) (p : nat) (w : World) :
  exists w' added,
    Core_Check load c ent (Some p) w = (Some p, w') /\ appendsCores w w' p added.
Proof.
  revert w.
  induction c as [| enab enc out | mc IH | core level IH | core funcs IH | enab logs ctx]
    using Core_induction; intros w; cbn [Core_Check].
  - exists w, []. split; [reflexivity | apply appendsCores_refl].
  - unfold leaf_Check. destruct (Enabled load enab (entLevel ent)).
    + destruct (AddCore_appends p ent (ioCore enab enc out) w) as [w' [E H]].
      unfold bind. rewrite E. now exists w', [ioCore enab enc out].
    + exists w, []. split; [reflexivity | apply appendsCores_refl].
  - unfold multiCore_Check. revert w.
    induction IH as [| c cs Hc _ IHcs]; intros w.
    + exists w, []. split; [reflexivity | apply appendsCores_refl].
    + destruct (Hc w) as [w1 [a [E1 H1]]]. unfold bind at 1. rewrite E1.
      destruct (IHcs w1) as [w2 [b [E2 H2]]]. exists w2, (a ++ b).
      split; [exact E2 | now apply appendsCores_trans with w1].
  - unfold levelFilterCore_Check. destruct (Enabled load level (entLevel ent)); cbn [negb].
    + apply IH.
    + exists w, []. split; [reflexivity | apply appendsCores_refl].
  - unfold hooked_Check. destruct (IH w) as [w1 [a [E1 H1]]].
    unfold bind at 1. rewrite E1.
    destruct (AddCore_appends p ent (hooked core funcs) w1) as [w2 [E2 H2]].
    unfold bind. rewrite E2. exists w2, (a ++ [hooked core funcs]).
    split; [reflexivity | now apply appendsCores_trans with w1].
  - unfold leaf_Check. destruct (Enabled load enab (entLevel ent)).
    + destruct (AddCore_appends p ent (contextObserver enab logs ctx) w) as [w' [E H]].
      unfold bind. rewrite E. now exists w', [contextObserver enab logs ctx].
    + exists w, []. split; [reflexivity | apply appendsCores_refl].
Qed.

(** X3. Given a handle, [Check] returns that same handle: it may append
    cores to it, and changes nothing else, neither the entry, the hook,
    the dirty flag or the error output of the handle, nor any other
    checked entry, the pool or the trace. *)
Theorem Core_Check_keeps_handle (c : Core) (ent : Entry) (p : nat) (w : World) :
  exists w' added,
    Core_Check load c ent (Some p) w = (Some p, w') /\ appendsCores w w' p added.
Proof.
  intros. eapply Check_on_handle; eassumption.
Qed.

(** Stated once more right below; later proofs use this form. *)
Lemma Check_on_nil (c : Core) (ent : Entry) (w : World) :
  Core_Check load c ent None w = (None, w)
  \/ exists p w' added,
       Core_Check load c ent None w = (Some p, w')
       /\ heap w' p = mkCheckedEntry ent None false nilHook added
       /\ added <> []
       /\ trace w' = trace w /\ _exit w' = _exit w.
Proof.
  revert w.
  assert (Hleaf : forall self enab w,
    leaf_Check load self enab ent None w = (None, w)
    \/ exists p w' added,
         leaf_Check load self enab ent None w = (Some p, w')
         /\ heap w' p = mkCheckedEntry ent None false nilHook added
         /\ added <> [] /\ trace w' = trace w /\ _exit w' = _exit w).
  { intros self enab w. unfold leaf_Check.
    destruct (Enabled load enab (entLevel ent)); [right | now left].
    destruct (AddCore_nil_fresh ent self w) as [p [w' [E [Hh [Ht He]]]]].
    unfold bind. rewrite E. exists p, w', [self]. repeat split; trivial. discriminate. }
  assert (Hgrow : forall p w1 w2 added more,
    heap w1 p = mkCheckedEntry ent None false nilHook added -> added <> [] ->
    appendsCores w1 w2 p more ->
    heap w2 p = mkCheckedEntry ent None false nilHook (added ++ more)
    /\ added ++ more <> [] /\ trace w2 = trace w1 /\ _exit w2 = _exit w1).
  { intros p w1 w2 added more Hh Hne [Hh2 [_ [Ht [_ [_ He]]]]].
    rewrite Hh2, Hh. repeat split; trivial.
    destruct added; [now contradiction Hne | discriminate]. }
  induction c as [| enab enc out | mc IH | core level IH | core funcs IH | enab logs ctx]
    using Core_induction; intros w; cbn [Core_Check].
  - now left.
  - apply Hleaf.
  - unfold multiCore_Check. revert w.
    induction IH as [| c cs Hc _ IHcs]; intros w; [now left |].
    destruct (Hc w) as [E1 | [p [w1 [added [E1 [Hh [Hne [Ht He]]]]]]]];
      rewrite !(bind_eq _ _ _ _ _ E1).
    + apply IHcs.
    + right.
      destruct (Check_on_handle (multiCore cs) ent p w1) as [w2 [more [E2 H2]]].
      cbn [Core_Check] in E2. unfold multiCore_Check in E2.
      exists p, w2, (added ++ more). split; [exact E2 |].
      destruct (Hgrow p w1 w2 added more Hh Hne H2) as [Hh2 [Hne2 [Ht2 He2]]].
      repeat split; trivial; congruence.
  - unfold levelFilterCore_Check.
    destruct (Enabled load level (entLevel ent)); cbn [negb]; [apply IH | now left].
  - unfold hooked_Check.
    destruct (IH w) as [E1 | [p [w1 [added [E1 [Hh [Hne [Ht He]]]]]]]];
      rewrite !(bind_eq _ _ _ _ _ E1); [now left | right].
    destruct (AddCore_appends p ent (hooked core funcs) w1) as [w2 [E2 H2]].
    unfold bind. rewrite E2. exists p, w2, (added ++ [hooked core funcs]).
    split; [reflexivity |].
    destruct (Hgrow p w1 w2 added _ Hh Hne H2) as [Hh2 [Hne2 [Ht2 He2]]].
    repeat split; trivial; congruence.
  - apply Hleaf.
Qed.

(** X4. On a nil handle, [Check] either returns nil and leaves the state
    as it is, or returns a fresh handle that holds the checked entry and
    at least one core, is not dirty and has neither hook nor error output;
    the trace is not touched. *)
Theorem Core_Check_from_nil (c : Core) (ent : Entry) (w : World) :
  Core_Check load c ent None w = (None, w)
  \/ exists p w' added,
       Core_Check load c ent None w = (Some p, w')
       /\ heap w' p = mkCheckedEntry ent None false nilHook added
       /\ added <> []
       /\ trace w' = trace w /\ _exit w' = _exit w.
Proof.
  intros. eapply Check_on_nil; eassumption.
Qed.

(** Stated once more right below; later proofs use this form. *)
Lemma Check_declined (c : Core) (ent : Entry) (w : World) :
  Core_Enabled load c (entLevel ent) = false ->
  Core_Check load c ent None w = (None, w).
Proof.
  revert w.
  induction c as [| enab enc out | mc IH | core level IH | core funcs IH | enab logs ctx]
    using Core_induction; intros w; cbn [Core_Check Core_Enabled]; intros Hd.
  - reflexivity.
  - unfold leaf_Check. now rewrite Hd.
  - unfold multiCore_Check. unfold multiCore_Enabled in Hd. revert w.
    induction IH as [| c cs Hc _ IHcs]; intros w; [reflexivity |].
    destruct (Core_Enabled load c (entLevel ent)) eqn:Ec; [discriminate |].
    unfold bind at 1. rewrite (Hc w eq_refl). now apply IHcs.
  - unfold levelFilterCore_Check. now rewrite Hd.
  - unfold hooked_Check. unfold bind. now rewrite (IH w Hd).
  - unfold leaf_Check. now rewrite Hd.
Qed.

(** X5. A core that does not enable the level of an entry answers nil to
    [Check] on a nil handle and leaves the state as it is: no checked
    entry is taken from the pool for a disabled level. *)
Theorem Core_Check_disabled (c : Core) (ent : Entry) (w : World) :
  Core_Enabled load c (entLevel ent) = false ->
  Core_Check load c ent None w = (None, w).
Proof.
  intros. eapply Check_declined; eassumption.
Qed.

(** X6. A core whose level filters all pass the test of
    [NewIncreaseLevelCore] and that enables a level of [Debug .. Fatal]
    answers [Check] on a nil handle with a handle for every entry of that
    level. *)
Theorem Core_Check_enabled (c : Core) (ent : Entry) (w : World) :
  builtByConstructors load c = true ->
  _minLevel <= entLevel ent <= _maxLevel ->
  Core_Enabled load c (entLevel ent) = true ->
  exists p w', Core_Check load c ent None w = (Some p, w').
Proof.
  intros Hb Hr. revert Hb w.
  induction c as [| enab enc out | mc IH | core level IH | core funcs IH | enab logs ctx]
    using Core_induction;
    cbn [Core_Check Core_Enabled builtByConstructors]; intros Hb w He.
  - discriminate.
  - unfold leaf_Check. rewrite He.
    destruct (AddCore_nil_fresh ent (ioCore enab enc out) w) as [p [w' [E _]]].
    unfold bind. rewrite E. now exists p, w'.
  - unfold multiCore_Check. unfold multiCore_Enabled in He. revert w Hb He.
    induction IH as [| c cs Hc _ IHcs]; intros w Hb He; [discriminate |].
    cbn [forallb] in Hb. apply andb_true_iff in Hb as [Hbc Hbcs].
    destruct (Core_Enabled load c (entLevel ent)) eqn:Ec.
    + destruct (Hc Hbc w eq_refl) as [p [w1 E1]]. unfold bind at 1. rewrite E1.
      destruct (Check_on_handle (multiCore cs) ent p w1) as [w2 [more [E2 _]]].
      cbn [Core_Check] in E2. unfold multiCore_Check in E2. now exists p, w2.
    + unfold bind at 1. rewrite (Check_declined c ent w Ec). now apply IHcs.
  - unfold levelFilterCore_Check. rewrite He. cbn [negb].
    pose proof (firstWidened_spec load core level) as Hw.
    destruct (firstWidened load 8 _maxLevel core level); [discriminate |].
    apply IH; trivial.
    specialize (Hw (entLevel ent) Hr). rewrite He, andb_true_r in Hw.
    now apply negb_false_iff in Hw.
  - unfold hooked_Check. destruct (IH Hb w He) as [p [w1 E1]].
    unfold bind at 1. rewrite E1.
    destruct (AddCore_appends p ent (hooked core funcs) w1) as [w2 [E2 _]].
    unfold bind. rewrite E2. now exists p, w2.
  - unfold leaf_Check. rewrite He.
    destruct (AddCore_nil_fresh ent (contextObserver enab logs ctx) w) as [p [w' [E _]]].
    unfold bind. rewrite E. now exists p, w'.
Qed.
End CheckProperties.

(** ** The end of [CheckedEntry.Write] *)

(** Stated once more right below; later proofs use this form. *)
Lemma Write_first (p : nat) (fields : list Field) (w : World) :
  dirty (heap w p) = false ->
  let o := heap w p in
  let r := hookOutcome (after o) (entMessage (ceEntry o)) (_exit w) in
  exists w',
    CheckedEntry_Write (Some p) fields w = (r, w')
    /\ trace w'
       = trace w
         ++ List.concat (map (fun c => snd (Core_Write c (ceEntry o) fields)) (cores o))
         ++ errorReport (ErrorOutput o) (ceEntry o)
              (List.concat (map (fun c => fst (Core_Write c (ceEntry o) fields)) (cores o)))
         ++ hookEvents (after o) p fields
    /\ _cePool w' = (if isReturned r then p :: _cePool w else _cePool w)
    /\ heap w' p = set_dirty true o.
Proof.
  intros Hd o r. subst o r. unfold CheckedEntry_Write. run.
  destruct (heap w p) as [ent out d hook cs] eqn:Ho. cbn in Hd. subst d.
  run. rewrite writeCores_collect. cbn [fst snd].
  set (err := List.concat (map (fun c => fst (Core_Write c ent fields)) cs)).
  set (evs := List.concat (map (fun c => snd (Core_Write c ent fields)) cs)).
  unfold CheckWriteHook_OnWrite, CheckWriteAction_OnWrite, exit_With, hookOutcome.
  destruct err as [| e es]; destruct out as [ws |]; cbn [isNil negb errorReport];
    run; rewrite ?Nat.eqb_refl, ?Ho; run;
    (destruct hook as [| a | name];
     [ | destruct (a =? WriteThenGoexit);
         [| destruct (a =? WriteThenPanic);
            [| destruct (a =? WriteThenFatal); [destruct (_exit w) |]]] | ]);
    run; rewrite ?Nat.eqb_refl, ?Ho; run;
    eexists; (split; [reflexivity |]); run; rewrite ?Nat.eqb_refl, ?Ho;
    cbn [hookEvents isReturned]; rewrite ?app_nil_r, <- ?app_assoc; repeat split.
Qed.


(** ** The logger *)

Section LoggerLogProperties.
Variable load : nat -> Z.

(** What the annotations of [Logger.check] change in a handle: the error
    output, the caller and the stack of the entry. *)
Lemma annotate_state (log : Logger) (rt : Runtime) (ent : Entry) (p : nat) (w : World) :
  exists w',
    annotate load log rt ent p w = (Some p, w')
    /\ dirty (heap w' p) = dirty (heap w p)
    /\ after (heap w' p) = after (heap w p)
    /\ cores (heap w' p) = cores (heap w p)
    /\ ErrorOutput (heap w' p) = Some (errorOutput log)
    /\ entLevel (ceEntry (heap w' p)) = entLevel (ceEntry (heap w p))
    /\ entTime (ceEntry (heap w' p)) = entTime (ceEntry (heap w p))
    /\ entLoggerName (ceEntry (heap w' p)) = entLoggerName (ceEntry (heap w p))
    /\ entMessage (ceEntry (heap w' p)) = entMessage (ceEntry (heap w p))
    /\ _exit w' = _exit w.
Proof.
  unfold annotate. run. rewrite !Nat.eqb_refl. run.
  destruct (negb (addCaller log) &&
            negb (Enabled load (addStack log) (entLevel (ceEntry (heap w p)))));
    [eexists; split; [reflexivity |]; run; rewrite Nat.eqb_refl; repeat split |].
  destruct (stacktrace_Capture rt (callerSkip log + callerSkipOffset)
              (Enabled load (addStack log) (entLevel (ceEntry (heap w p)))))
    as [| frame rest].
  - destruct (addCaller log); run;
      (eexists; split; [reflexivity |]); run; rewrite Nat.eqb_refl; repeat split.
  - destruct (addCaller log);
      destruct (Enabled load (addStack log) (entLevel (ceEntry (heap w p))));
      run; (eexists; split; [reflexivity |]); run; rewrite !Nat.eqb_refl;
      repeat split.
Qed.

(** Stated once more right below; later proofs use this form. *)
Lemma check_result
  (log : Logger) (rt : Runtime) (lvl : Level) (msg : string) (w : World) :
  (terminalLevel log lvl = false /\ Logger_check load log rt lvl msg w = (None, w))
  \/ exists p w',
       Logger_check load log rt lvl msg w = (Some p, w')
       /\ dirty (heap w' p) = false
       /\ (cores (heap w' p) = [] -> terminalLevel log lvl = true)
       /\ entLevel (ceEntry (heap w' p)) = lvl
       /\ entMessage (ceEntry (heap w' p)) = msg
       /\ entLoggerName (ceEntry (heap w' p)) = name log
       /\ entTime (ceEntry (heap w' p)) = Now rt
       /\ after (heap w' p)
          = (if terminalLevel log lvl then terminalHook log lvl else nilHook)
       /\ _exit w' = _exit w.
Proof.
  unfold Logger_check, terminalLevel, terminalHook.
  destruct (Z.ltb_spec lvl DPanicLevel) as [Hlt | Hge]; cbn [andb].
  - assert (Hnt : (lvl =? PanicLevel) || (lvl =? FatalLevel)
                  || ((lvl =? DPanicLevel) && development log) = false).
    { unfold DPanicLevel, PanicLevel, FatalLevel in *.
      destruct (Z.eqb_spec lvl 4); [lia |]. destruct (Z.eqb_spec lvl 5); [lia |].
      destruct (Z.eqb_spec lvl 3); [lia | reflexivity]. }
    rewrite Hnt.
    destruct (Core_Enabled load (core log) lvl) eqn:Een; cbn [negb].
    + set (ent := mkEntry lvl (Now rt) (name log) msg noCaller "").
      destruct (Check_on_nil load (core log) ent w)
        as [E | [p [w1 [added [E [Hh [Hne [Ht He]]]]]]]];
        rewrite (bind_eq _ _ _ _ _ E); cbn [entLevel ent].
      * left. split; [reflexivity |].
        unfold DPanicLevel, PanicLevel, FatalLevel in *.
        destruct (Z.eqb_spec lvl 4); [lia |]. destruct (Z.eqb_spec lvl 5); [lia |].
        destruct (Z.eqb_spec lvl 3); [lia | reflexivity].
      * right.
        assert (Hsw : (lvl =? PanicLevel) = false /\ (lvl =? FatalLevel) = false
                      /\ (lvl =? DPanicLevel) = false).
        { unfold DPanicLevel, PanicLevel, FatalLevel in *.
          repeat split; apply Z.eqb_neq; lia. }
        destruct Hsw as [-> [-> ->]]. unfold bind at 1, ret at 1. cbn [negb].
        destruct (annotate_state log rt ent p w1)
          as [w2 [E2 [Hd [Ha [Hc [Ho [Hl [Hti [Hn [Hm Hx]]]]]]]]]].
        rewrite E2. exists p, w2. rewrite Hd, Ha, Hc, Hl, Hti, Hn, Hm, Hx, Hh, He.
        cbn. repeat split. intros ->. now contradiction Hne.
    + left. split; reflexivity.
  - set (ent := mkEntry lvl (Now rt) (name log) msg noCaller "").
    cbn [entLevel ent].
    assert (Hafter : forall ce w1 hook,
      (ce = None /\ w1 = w
       \/ exists p added, ce = Some p
            /\ heap w1 p = mkCheckedEntry ent None false nilHook added
            /\ added <> [] /\ _exit w1 = _exit w) ->
      exists p w',
        bind (bind (CheckedEntry_After ce ent hook) (fun p => ret (Some p)))
          (fun ce0 =>
             if negb (match ce with Some _ => true | None => false end) then ret ce0
             else match ce0 with
                  | Some p => annotate load log rt ent p
                  | None => ret None
                  end) w1 = (Some p, w')
        /\ dirty (heap w' p) = false
        /\ (cores (heap w' p) = [] -> True)
        /\ entLevel (ceEntry (heap w' p)) = lvl
        /\ entMessage (ceEntry (heap w' p)) = msg
        /\ entLoggerName (ceEntry (heap w' p)) = name log
        /\ entTime (ceEntry (heap w' p)) = Now rt
        /\ after (heap w' p) = hook
        /\ _exit w' = _exit w).
    { intros ce w1 hook [[-> ->] | [p [added [-> [Hh [Hne He]]]]]].
      - destruct (After_nil_fresh ent hook w) as [p [w2 [E [Hh [_ He]]]]].
        unfold bind, ret. rewrite E. cbn [negb]. exists p, w2.
        rewrite Hh, He. cbn. repeat split.
      - destruct (After_state (Some p) ent hook w1) as [q [w2 [E [[-> Hh2] _]]]].
        assert (He2 : _exit w2 = _exit w1).
        { unfold CheckedEntry_After in E. revert E. run. intros E.
          injection E as <-. reflexivity. }
        unfold bind, ret. rewrite E. cbn [negb].
        destruct (annotate_state log rt ent p w2)
          as [w3 [E3 [Hd [Ha [Hc [Ho [Hl [Hti [Hn [Hm Hx]]]]]]]]]].
        rewrite E3. exists p, w3.
        rewrite Hd, Ha, Hl, Hti, Hn, Hm, Hx, Hh2, Hh, He2, He. cbn. repeat split. }
    destruct (Check_on_nil load (core log) ent w)
      as [E | [p [w1 [added [E [Hh [Hne [Ht He]]]]]]]];
      rewrite (bind_eq _ _ _ _ _ E).
    + destruct (lvl =? PanicLevel) eqn:E4; cbn [orb].
      { right. destruct (Hafter None w
                 (terminalHookOverride (ActionHook WriteThenPanic) (onPanic log)))
          as [p [w' [Ec H]]]; [now left |].
        exists p, w'. split; [exact Ec |].
        apply Z.eqb_eq in E4. subst lvl. cbn [Z.eqb FatalLevel PanicLevel Pos.eqb].
        destruct H as [H1 [_ H]]. split; [exact H1 |]. split; [trivial | exact H]. }
      destruct (lvl =? FatalLevel) eqn:E5; cbn [orb].
      { right. destruct (Hafter None w
                 (terminalHookOverride (ActionHook WriteThenFatal) (onFatal log)))
          as [p [w' [Ec H]]]; [now left |].
        exists p, w'. split; [exact Ec |].
        destruct H as [H1 [_ H]]. split; [exact H1 |]. split; [trivial | exact H]. }
      destruct (lvl =? DPanicLevel) eqn:E3; cbn [andb].
      { destruct (development log).
        - right. destruct (Hafter None w
                   (terminalHookOverride (ActionHook WriteThenPanic) (onPanic log)))
            as [p [w' [Ec H]]]; [now left |].
          exists p, w'. split; [exact Ec |].
          destruct H as [H1 [_ H]]. split; [exact H1 |]. split; [trivial | exact H].
        - left. split; reflexivity. }
      left. split; reflexivity.
    + right.
      assert (Hce : Some p = None /\ w1 = w
                    \/ exists p0 added0, Some p = Some p0
                         /\ heap w1 p0 = mkCheckedEntry ent None false nilHook added0
                         /\ added0 <> [] /\ _exit w1 = _exit w).
      { right. exists p, added. repeat split; trivial. }
      assert (Hplain : exists w',
        bind (ret (Some p))
          (fun ce0 =>
             if negb true then ret ce0
             else match ce0 with
                  | Some p => annotate load log rt ent p
                  | None => ret None
                  end) w1 = (Some p, w')
        /\ dirty (heap w' p) = false
        /\ (cores (heap w' p) = [] -> False)
        /\ entLevel (ceEntry (heap w' p)) = lvl
        /\ entMessage (ceEntry (heap w' p)) = msg
        /\ entLoggerName (ceEntry (heap w' p)) = name log
        /\ entTime (ceEntry (heap w' p)) = Now rt
        /\ after (heap w' p) = nilHook
        /\ _exit w' = _exit w).
      { unfold bind, ret. cbn [negb].
        destruct (annotate_state log rt ent p w1)
          as [w3 [E3 [Hd [Ha [Hc [Ho [Hl [Hti [Hn [Hm Hx]]]]]]]]]].
        rewrite E3. exists w3. rewrite Hd, Ha, Hc, Hl, Hti, Hn, Hm, Hx, Hh, He.
        cbn. repeat split. intros ->. now contradiction Hne. }
      destruct (lvl =? PanicLevel) eqn:E4; cbn [orb].
      { destruct (Hafter (Some p) w1
                 (terminalHookOverride (ActionHook WriteThenPanic) (onPanic log)) Hce)
          as [q [w' [Ec H]]].
        exists q, w'. split; [exact Ec |].
        apply Z.eqb_eq in E4. subst lvl. cbn [Z.eqb FatalLevel PanicLevel Pos.eqb].
        destruct H as [H1 [_ H]]. split; [exact H1 |]. split; [trivial | exact H]. }
      destruct (lvl =? FatalLevel) eqn:E5; cbn [orb].
      { destruct (Hafter (Some p) w1
                 (terminalHookOverride (ActionHook WriteThenFatal) (onFatal log)) Hce)
          as [q [w' [Ec H]]].
        exists q, w'. split; [exact Ec |].
        destruct H as [H1 [_ H]]. split; [exact H1 |]. split; [trivial | exact H]. }
      destruct (lvl =? DPanicLevel) eqn:E3; cbn [andb].
      { destruct (development log).
        - destruct (Hafter (Some p) w1
                   (terminalHookOverride (ActionHook WriteThenPanic) (onPanic log)) Hce)
            as [q [w' [Ec H]]].
          exists q, w'. split; [exact Ec |].
          destruct H as [H1 [_ H]]. split; [exact H1 |]. split; [trivial | exact H].
        - destruct Hplain as [w' [Ec H]]. exists p, w'. split; [exact Ec |].
          destruct H as [H1 [H2 H]]. split; [exact H1 |].
          split; [intros Hc; now contradiction (H2 Hc) | exact H]. }
      destruct Hplain as [w' [Ec H]]. exists p, w'. split; [exact Ec |].
      destruct H as [H1 [H2 H]]. split; [exact H1 |].
      split; [intros Hc; now contradiction (H2 Hc) | exact H].
Qed.

(** X8. [Logger.check] either returns nil, at a level without terminal
    hook, and leaves the state as it is, or returns a handle that is not
    dirty, lists at least one core or else exists for a terminal hook
    only, carries the level, the message, the logger's name and the time of
    the clock, and has the terminal hook of the level, or none at a level
    without one. *)
Theorem Logger_check_handle
  (log : Logger) (rt : Runtime) (lvl : Level) (msg : string) (w : World) :
  (terminalLevel log lvl = false /\ Logger_check load log rt lvl msg w = (None, w))
  \/ exists p w',
       Logger_check load log rt lvl msg w = (Some p, w')
       /\ dirty (heap w' p) = false
       /\ (cores (heap w' p) <> [] \/ terminalLevel log lvl = true)
       /\ entLevel (ceEntry (heap w' p)) = lvl
       /\ entMessage (ceEntry (heap w' p)) = msg
       /\ entLoggerName (ceEntry (heap w' p)) = name log
       /\ entTime (ceEntry (heap w' p)) = Now rt
       /\ after (heap w' p)
          = (if terminalLevel log lvl then terminalHook log lvl else nilHook)
       /\ _exit w' = _exit w.
Proof.
  destruct (check_result log rt lvl msg w) as [H | [p [w' [E [Hd [Hc H]]]]]];
    [left; exact H | right].
  exists p, w'. split; [exact E |]. split; [exact Hd |]. split; [| exact H].
  destruct (cores (heap w' p)); [right; now apply Hc | left; discriminate].
Qed.
End LoggerLogProperties.

Section LoggerUseProperties.
Variable load : nat -> Z.

(** X9. At a level without terminal hook that the core does not enable,
    [Logger.check] returns nil and [Logger.Log] returns without any
    effect: no checked entry is taken, nothing is written. *)
Theorem Logger_Log_disabled
  (log : Logger) (rt : Runtime) (lvl : Level) (msg : string) (fields : list Field)
  (w : World) :
  terminalLevel log lvl = false ->
  Core_Enabled load (core log) lvl = false ->
  Logger_check load log rt lvl msg w = (None, w)
  /\ Logger_Log load log rt lvl msg fields w = (Returned, w).
Proof.
  intros Hnt Hd.
  assert (Hc : Logger_check load log rt lvl msg w = (None, w)).
  { destruct (check_result load log rt lvl msg w)
      as [[_ E] | [p [w' [E [_ [Hcs _]]]]]]; [exact E |].
    exfalso. revert E. unfold Logger_check. rewrite Hd. cbn [negb].
    destruct (lvl <? DPanicLevel); cbn [andb]; [discriminate |].
    rewrite (bind_eq _ _ _ _ _
               (Check_declined load (core log)
                  (mkEntry lvl (Now rt) (name log) msg noCaller "") w Hd)).
    unfold terminalLevel in Hnt. cbn [entLevel].
    destruct (lvl =? PanicLevel); [discriminate |].
    destruct (lvl =? FatalLevel); [discriminate |].
    destruct (lvl =? DPanicLevel); cbn in Hnt; [rewrite Hnt |]; discriminate. }
  split; [exact Hc |]. unfold Logger_Log. now rewrite (bind_eq _ _ _ _ _ Hc).
Qed.

(** Stated once more right below; later proofs use this form. *)
Lemma Log_result
  (log : Logger) (rt : Runtime) (lvl : Level) (msg : string) (fields : list Field)
  (w : World) :
  fst (Logger_Log load log rt lvl msg fields w)
  = if terminalLevel log lvl
    then hookOutcome (terminalHook log lvl) msg (_exit w)
    else Returned.
Proof.
  unfold Logger_Log.
  destruct (check_result load log rt lvl msg w)
    as [[Hnt E] | [p [w' [E [Hd [_ [_ [Hm [_ [_ [Ha He]]]]]]]]]]];
    rewrite (bind_eq _ _ _ _ _ E).
  - now rewrite Hnt.
  - destruct (Write_first p fields w' Hd) as [w2 [E2 _]].
    rewrite E2. cbn [fst]. rewrite Ha, Hm, He.
    now destruct (terminalLevel log lvl).
Qed.

(** X10. [Logger.Log] at a level without terminal hook always returns;
    at a level with one it ends as that hook says, on the message that was
    logged, whether or not the core enables the level. *)
Theorem Logger_Log_outcome
  (log : Logger) (rt : Runtime) (lvl : Level) (msg : string) (fields : list Field)
  (w : World) :
  fst (Logger_Log load log rt lvl msg fields w)
  = if terminalLevel log lvl
    then hookOutcome (terminalHook log lvl) msg (_exit w)
    else Returned.
Proof.
  intros. eapply Log_result; eassumption.
Qed.

(** X11. With no panic hook of its own, or with [WriteThenNoop] as one,
    [Logger.Panic] panics with the message, even when the core does not
    enable [PanicLevel]. *)
Theorem Logger_Panic_panics
  (log : Logger) (rt : Runtime) (msg : string) (fields : list Field) (w : World) :
  onPanic log = nilHook \/ onPanic log = ActionHook WriteThenNoop ->
  fst (Logger_Panic load log rt msg fields w) = Panicked msg.
Proof.
  intros Hh. unfold Logger_Panic. rewrite Log_result.
  unfold terminalLevel, terminalHook. cbn [Z.eqb PanicLevel FatalLevel Pos.eqb orb].
  now destruct Hh as [-> | ->].
Qed.

(** X12. With no fatal hook of its own, or with [WriteThenNoop] as one,
    [Logger.Fatal] exits the process with status 1, even when the core
    does not enable [FatalLevel], unless the exit function is stubbed, in
    which case it returns. *)
Theorem Logger_Fatal_exits
  (log : Logger) (rt : Runtime) (msg : string) (fields : list Field) (w : World) :
  onFatal log = nilHook \/ onFatal log = ActionHook WriteThenNoop ->
  fst (Logger_Fatal load log rt msg fields w)
  = match _exit w with
    | None => OsExit 1
    | Some _ => Returned
    end.
Proof.
  intros Hh. unfold Logger_Fatal. rewrite Log_result.
  unfold terminalLevel, terminalHook. cbn [Z.eqb PanicLevel FatalLevel Pos.eqb orb].
  now destruct Hh as [-> | ->].
Qed.

(** X13. [Logger.With] changes neither the level the logger reports nor
    the levels its core enables, and nothing but the core. *)
Theorem Logger_With_keeps_Level (log : Logger) (fields : list Field) :
  Logger_Level load (Logger_With log fields) = Logger_Level load log
  /\ (forall l, Core_Enabled load (core (Logger_With log fields)) l
                = Core_Enabled load (core log) l)
  /\ Logger_set_core (core log) (Logger_With log fields) = log.
Proof.
  unfold Logger_Level, Logger_With.
  destruct fields as [| f fs]; [now destruct log |].
  cbn [core Logger_set_core Logger_clone].
  destruct (With_levels load (core log) (f :: fs)) as [He Hl].
  repeat split; trivial. now destruct log.
Qed.
End LoggerUseProperties.

Lemma string_append_assoc (a b c : string) :
  ((a ++ b) ++ c = a ++ (b ++ c))%string.
Proof.
  induction a as [| x a IH]; cbn; [reflexivity | now rewrite IH].
Qed.

(** X14. Naming a logger twice is naming it once with the two segments
    joined by a period, for segments that are not empty; the empty segment
    leaves the logger as it is. *)
Theorem Logger_Named_Named (log : Logger) (a b : string) :
  String.eqb a "" = false ->
  String.eqb b "" = false ->
  Logger_Named (Logger_Named log a) b = Logger_Named log (a ++ "." ++ b)%string
  /\ Logger_Named log "" = log.
Proof.
  intros Ha Hb. split; [| reflexivity]. unfold Logger_Named.
  rewrite Ha, Hb.
  assert (Hab : String.eqb (a ++ "." ++ b)%string "" = false).
  { apply String.eqb_neq. destruct a; [discriminate Ha | discriminate]. }
  rewrite Hab. destruct log as [c d ac op ofa n eo ast cs]. cbn.
  destruct (String.eqb_spec n "") as [-> | Hn]; cbn.
  - rewrite Ha. reflexivity.
  - assert (Hna : String.eqb (n ++ "." ++ a)%string "" = false).
    { apply String.eqb_neq. destruct n; [now contradiction Hn | discriminate]. }
    cbn in Hna. rewrite Hna. unfold Logger_set_name, Logger_clone. cbn.
    now rewrite string_append_assoc.
Qed.

(** ** Levels as text *)

Section LevelTextProperties.
Variable ToLower : string -> string.
Variable Quote : string -> string.

Lemma Level_unmarshalText_range (v : Level) (text : string) :
  match Level_unmarshalText v text with
  | (l, true) => _minLevel <= l <= _maxLevel
  | (l, false) => l = v
  end.
Proof.
  unfold Level_unmarshalText, _minLevel, _maxLevel, DebugLevel, InfoLevel, WarnLevel,
    ErrorLevel, DPanicLevel, PanicLevel, FatalLevel.
  repeat match goal with
         | |- context [if ?b then _ else _] => destruct b
         end; trivial; lia.
Qed.

(** Stated once more right below; later proofs use this form. *)
Lemma text_round_trip (l v : Level) :
  _minLevel <= l <= _maxLevel ->
  Level_UnmarshalText ToLower Quote (Some v) (fst (Level_MarshalText l)) = (Some l, [])
  /\ ParseLevel ToLower Quote (Level_String l) = (l, []).
Proof.
  intros Hl.
  assert (Hc : l = -1 \/ l = 0 \/ l = 1 \/ l = 2 \/ l = 3 \/ l = 4 \/ l = 5).
  { unfold _minLevel, _maxLevel, DebugLevel, FatalLevel in Hl. lia. }
  destruct Hc as [-> | [-> | [-> | [-> | [-> | [-> | ->]]]]]]; split; reflexivity.
Qed.

(** X15. [MarshalText] followed by [UnmarshalText] gives back every level
    of [Debug .. Fatal], whatever the receiver held, and so does
    [ParseLevel] on the name of the level. *)
Theorem Level_text_round_trip (l v : Level) :
  _minLevel <= l <= _maxLevel ->
  Level_UnmarshalText ToLower Quote (Some v) (fst (Level_MarshalText l)) = (Some l, [])
  /\ ParseLevel ToLower Quote (Level_String l) = (l, []).
Proof.
  intros. eapply text_round_trip; eassumption.
Qed.

(** X16. The upper-case name of a level of [Debug .. Fatal] parses to
    that level, through the lower-casing of ASCII text. *)
Theorem Level_capital_parses (l : Level) :
  (forall s, isASCII s = true -> ToLower s = asciiLower s) ->
  _minLevel <= l <= _maxLevel ->
  ParseLevel ToLower Quote (Level_CapitalString l) = (l, []).
Proof.
  intros Hlow Hl.
  assert (Hc : l = -1 \/ l = 0 \/ l = 1 \/ l = 2 \/ l = 3 \/ l = 4 \/ l = 5).
  { unfold _minLevel, _maxLevel, DebugLevel, FatalLevel in Hl. lia. }
  destruct Hc as [-> | [-> | [-> | [-> | [-> | [-> | ->]]]]]];
    unfold ParseLevel, Level_UnmarshalText;
    cbn [Level_CapitalString Z.eqb DebugLevel InfoLevel WarnLevel ErrorLevel
         DPanicLevel PanicLevel FatalLevel Pos.eqb];
    match goal with |- context [ToLower ?s] =>
      rewrite (Hlow s eq_refl)
    end; reflexivity.
Qed.

(** Stated once more right below; later proofs use this form. *)
Lemma UnmarshalText_cases (v : Level) (text : string) :
  match Level_UnmarshalText ToLower Quote (Some v) text with
  | (r, []) => exists l, r = Some l /\ _minLevel <= l <= _maxLevel
  | (r, _ :: _) => r = Some v
  end
  /\ snd (Level_UnmarshalText ToLower Quote None text) <> []
  /\ match ParseLevel ToLower Quote text with
     | (l, []) => _minLevel <= l <= _maxLevel
     | (l, _ :: _) => l = InfoLevel
     end.
Proof.
  assert (H : forall v0,
    match Level_UnmarshalText ToLower Quote (Some v0) text with
    | (r, []) => exists l, r = Some l /\ _minLevel <= l <= _maxLevel
    | (r, _ :: _) => r = Some v0
    end).
  { intros v0. unfold Level_UnmarshalText.
    pose proof (Level_unmarshalText_range v0 text) as H1.
    destruct (Level_unmarshalText v0 text) as [v1 [|]]; [now exists v1 |].
    subst v1.
    pose proof (Level_unmarshalText_range v0 (ToLower text)) as H2.
    destruct (Level_unmarshalText v0 (ToLower text)) as [v2 [|]]; [now exists v2 |].
    now subst v2. }
  split; [apply H |]. split; [discriminate |].
  unfold ParseLevel. specialize (H 0). revert H. unfold Level.
  destruct (Level_UnmarshalText ToLower Quote (Some 0) text) as [r [| e es]];
    cbn beta iota.
  - intros [l [-> Hl]]. exact Hl.
  - now intros ->.
Qed.

(** X17. A text that [UnmarshalText] accepts yields a level of
    [Debug .. Fatal]; a text it refuses leaves the receiver as it was, and a
    nil receiver is always an error.  [ParseLevel] thus returns either a
    level of [Debug .. Fatal] and no error, or an error with [InfoLevel]. *)
Theorem Level_UnmarshalText_result (v : Level) (text : string) :
  match Level_UnmarshalText ToLower Quote (Some v) text with
  | (r, []) => exists l, r = Some l /\ _minLevel <= l <= _maxLevel
  | (r, _ :: _) => r = Some v
  end
  /\ snd (Level_UnmarshalText ToLower Quote None text) <> []
  /\ match ParseLevel ToLower Quote text with
     | (l, []) => _minLevel <= l <= _maxLevel
     | (l, _ :: _) => l = InfoLevel
     end.
Proof.
  intros. eapply UnmarshalText_cases; eassumption.
Qed.

Variable load : nat -> Z.

(** Stated once more right below; later proofs use this form. *)
Lemma SetLevel_then_Level (a : nat) (l : Level) :
  -128 <= l <= 127 ->
  AtomicLevel_Level (AtomicLevel_SetLevel load a l) a = l
  /\ (forall lvl, Enabled (AtomicLevel_SetLevel load a l) (AtomicLevel a) lvl
                  = Level_Enabled l lvl)
  /\ (forall b, b <> a ->
        AtomicLevel_Level (AtomicLevel_SetLevel load a l) b = AtomicLevel_Level load b).
Proof.
  intros Hl.
  assert (H : AtomicLevel_Level (AtomicLevel_SetLevel load a l) a = l).
  { unfold AtomicLevel_Level, AtomicLevel_SetLevel, int8. rewrite Nat.eqb_refl.
    rewrite Z.mod_small by lia. lia. }
  repeat split; trivial.
  - intros lvl. cbn [Enabled]. unfold AtomicLevel_Enabled. now rewrite H.
  - intros b Hb. unfold AtomicLevel_Level, AtomicLevel_SetLevel.
    apply Nat.eqb_neq in Hb. now rewrite Hb.
Qed.

(** X18. [SetLevel] followed by [Level] gives back every level an [int8]
    can hold, makes the atomic level enable exactly the levels at or above
    it, and leaves every other atomic level as it was. *)
Theorem AtomicLevel_SetLevel_Level (a : nat) (l : Level) :
  -128 <= l <= 127 ->
  AtomicLevel_Level (AtomicLevel_SetLevel load a l) a = l
  /\ (forall lvl, Enabled (AtomicLevel_SetLevel load a l) (AtomicLevel a) lvl
                  = Level_Enabled l lvl)
  /\ (forall b, b <> a ->
        AtomicLevel_Level (AtomicLevel_SetLevel load a l) b = AtomicLevel_Level load b).
Proof.
  intros. eapply SetLevel_then_Level; eassumption.
Qed.

End LevelTextProperties.

(** ** Buffers and callers *)

Lemma string_length_append (a b : string) :
  String.length (a ++ b) = (String.length a + String.length b)%nat.
Proof.
  induction a as [| x a IH]; cbn; [reflexivity | now rewrite IH].
Qed.

Lemma string_get_end (a : string) (c : Ascii.ascii) (b : string) :
  String.get (String.length a) (a ++ String c b) = Some c.
Proof.
  induction a as [| x a IH]; cbn; [reflexivity | exact IH].
Qed.

Lemma substring_prefix (a b : string) :
  substring 0 (String.length a) (a ++ b) = a.
Proof.
  induction a as [| x a IH]; cbn.
  - now destruct b.
  - now rewrite IH.
Qed.

Lemma substring_suffix (a b : string) :
  substring (String.length a) (String.length b) (a ++ b) = b.
Proof.
  induction a as [| x a IH]; cbn; [| exact IH].
  induction b as [| y b IHb]; cbn; [reflexivity | now rewrite IHb].
Qed.

Lemma string_append_nil (a : string) : (a ++ "")%string = a.
Proof.
  induction a as [| x a IH]; cbn; [reflexivity | now rewrite IH].
Qed.

(** Appending to a buffer appends to its contents and adds to its
    length; [Write] and [WriteString] report the number of bytes given and
    no error; a reset buffer is empty. *)
Lemma Buffer_append_Len (b : Buffer) (s t : string) :
  Buffer_String (Buffer_AppendString (Buffer_AppendString b s) t)
  = (Buffer_String b ++ (s ++ t))%string
  /\ Buffer_Len (Buffer_AppendString b s) = Buffer_Len b + Z.of_nat (String.length s)
  /\ Buffer_Len (fst (Buffer_Write b s)) = Buffer_Len b + fst (snd (Buffer_Write b s))
  /\ snd (snd (Buffer_Write b s)) = []
  /\ Buffer_Write b s = Buffer_WriteString b s
  /\ Buffer_Len (Buffer_Reset b) = 0
  /\ Buffer_String (Buffer_AppendString (Buffer_Reset b) s) = s.
Proof.
  unfold Buffer_String, Buffer_AppendString, Buffer_Len, Buffer_Write, Buffer_WriteString,
    Buffer_Reset.
  cbn [fst snd]. rewrite string_append_assoc, string_length_append, Nat2Z.inj_add.
  repeat split.
Qed.

(** X20. [TrimNewline] removes one newline at the end of the buffer and
    nothing else: a buffer that ends in another byte, and the empty
    buffer, are left as they are. *)
Theorem Buffer_TrimNewline_last (b : Buffer) (c : Ascii.ascii) :
  Buffer_TrimNewline (Buffer_AppendByte b c)
  = (if Ascii.eqb c newline then b else Buffer_AppendByte b c)
  /\ Buffer_TrimNewline EmptyString = EmptyString.
Proof.
  split; [| reflexivity].
  unfold Buffer_TrimNewline, Buffer_AppendByte, Buffer_Len.
  rewrite string_length_append. cbn [String.length].
  replace (Z.of_nat (String.length b + 1) - 1) with (Z.of_nat (String.length b)) by lia.
  destruct (Z.geb_spec (Z.of_nat (String.length b)) 0) as [_ | Hneg]; [| lia].
  rewrite Nat2Z.id, string_get_end.
  destruct (Ascii.eqb c newline); [apply substring_prefix | reflexivity].
Qed.

Lemma lastIndexFrom_absent (s : string) (c : Ascii.ascii) (i found : Z) :
  containsByte s c = false -> lastIndexFrom s c i found = found.
Proof.
  revert i found. induction s as [| a s IH]; intros i found H; cbn in *; [reflexivity |].
  apply orb_false_iff in H as [Ha Hs]. rewrite Ha. now apply IH.
Qed.

Lemma lastIndexFrom_last (x y : string) (c : Ascii.ascii) (i found : Z) :
  containsByte y c = false ->
  lastIndexFrom (x ++ String c y) c i found = i + Z.of_nat (String.length x).
Proof.
  intros Hy. revert i found. induction x as [| a x IH]; intros i found; cbn [append lastIndexFrom].
  - rewrite Ascii.eqb_refl, lastIndexFrom_absent by assumption. cbn. lia.
  - rewrite IH. cbn [String.length]. lia.
Qed.

Lemma strings_LastIndexByte_last (x y : string) (c : Ascii.ascii) :
  containsByte y c = false ->
  strings_LastIndexByte (x ++ String c y) c = Z.of_nat (String.length x).
Proof.
  intros Hy. unfold strings_LastIndexByte. now rewrite lastIndexFrom_last.
Qed.

Lemma sliceTo_prefix (a b : string) :
  sliceTo (a ++ b) (Z.of_nat (String.length a)) = a.
Proof.
  unfold sliceTo. rewrite Nat2Z.id. apply substring_prefix.
Qed.

Lemma sliceFrom_suffix (a b : string) :
  sliceFrom (a ++ b) (Z.of_nat (String.length a)) = b.
Proof.
  unfold sliceFrom. rewrite Nat2Z.id, string_length_append.
  replace (String.length a + String.length b - String.length a)%nat
    with (String.length b) by lia.
  apply substring_suffix.
Qed.

(** X21. For a defined caller whose file path ends in two segments
    without slash, [TrimmedPath] is those two segments, a colon and the
    line, whatever comes before them. *)
Theorem EntryCaller_TrimmedPath_two_segments
  (pc : Z) (dir a b : string) (line : Z) (fn : string) :
  containsByte a slash = false ->
  containsByte b slash = false ->
  EntryCaller_TrimmedPath
    (mkEntryCaller true pc (dir ++ String slash (a ++ String slash b)) line fn)
  = (a ++ String slash b ++ String colon (decimal line))%string.
Proof.
  intros Ha Hb.
  remember (dir ++ String slash (a ++ String slash b))%string as file eqn:Ef.
  assert (E1 : file = ((dir ++ String slash a) ++ String slash b)%string).
  { subst file. now rewrite string_append_assoc. }
  assert (E2 : file = ((dir ++ String slash EmptyString) ++ (a ++ String slash b))%string).
  { subst file. now rewrite string_append_assoc. }
  unfold EntryCaller_TrimmedPath. cbn [Defined negb File Line].
  rewrite E1, strings_LastIndexByte_last by assumption.
  destruct (Z.eqb_spec (Z.of_nat (String.length (dir ++ String slash a))) (-1)); [lia |].
  rewrite sliceTo_prefix, strings_LastIndexByte_last by assumption.
  destruct (Z.eqb_spec (Z.of_nat (String.length dir)) (-1)); [lia |].
  rewrite <- E1, E2.
  replace (Z.of_nat (String.length dir) + 1)
    with (Z.of_nat (String.length (dir ++ String slash EmptyString))).
  2: { rewrite string_length_append. cbn. lia. }
  rewrite sliceFrom_suffix.
  unfold bufferpool_Get, Buffer_Reset, Buffer_AppendString, Buffer_AppendByte,
    Buffer_AppendInt, Buffer_String.
  cbn [append]. now rewrite !string_append_assoc.
Qed.

(** X22. For a defined caller whose file path has no slash, or one
    slash only, [TrimmedPath] is the full path; for an undefined caller
    both are the word undefined. *)
Theorem EntryCaller_TrimmedPath_short
  (pc : Z) (a b : string) (line : Z) (fn file : string) :
  containsByte a slash = false ->
  containsByte b slash = false ->
  EntryCaller_TrimmedPath (mkEntryCaller true pc a line fn)
  = EntryCaller_FullPath (mkEntryCaller true pc a line fn)
  /\ EntryCaller_TrimmedPath (mkEntryCaller true pc (a ++ String slash b) line fn)
     = EntryCaller_FullPath (mkEntryCaller true pc (a ++ String slash b) line fn)
  /\ EntryCaller_TrimmedPath (mkEntryCaller false pc file line fn) = "undefined"
  /\ EntryCaller_FullPath (mkEntryCaller false pc file line fn) = "undefined".
Proof.
  intros Ha Hb. unfold EntryCaller_TrimmedPath. cbn [Defined negb File Line].
  repeat split.
  - unfold strings_LastIndexByte. now rewrite lastIndexFrom_absent.
  - rewrite strings_LastIndexByte_last by assumption.
    destruct (Z.eqb_spec (Z.of_nat (String.length a)) (-1)); [lia |].
    rewrite sliceTo_prefix. unfold strings_LastIndexByte.
    now rewrite lastIndexFrom_absent.
Qed.

(** ** Write syncers *)

(** X23. Locking a syncer twice is locking it once, and a locked syncer
    writes and syncs as the syncer it wraps. *)
Theorem Lock_idempotent (ws : Sink) (p : string) :
  Lock (Lock ws) = Lock ws
  /\ Sink_Write (Lock ws) p = Sink_Write ws p
  /\ Sink_Sync (Lock ws) = Sink_Sync ws.
Proof.
  destruct ws; repeat split.
Qed.

Lemma multiWriteSyncer_Write_loop (ws : list Sink) (p : string) (n0 : Z) (e0 : error) :
  forRange
    (fun w (st : Z * error) =>
       let '(nWritten, writeErr) := st in
       wbind (Sink_Write w p)
         (fun r => let '(n, err) := r in
                   wret (nextWritten nWritten n, multierr_Append writeErr err)))
    ws (n0, e0)
  = ((fold_left nextWritten (map (fun w => fst (fst (Sink_Write w p))) ws) n0,
      e0 ++ List.concat (map (fun w => snd (fst (Sink_Write w p))) ws)),
     List.concat (map (fun w => snd (Sink_Write w p)) ws)).
Proof.
  revert n0 e0. induction ws as [| w ws IH]; intros n0 e0; cbn [forRange map fold_left List.concat].
  - unfold wret. now rewrite app_nil_r.
  - unfold wbind, wret in *. destruct (Sink_Write w p) as [[n err] t].
    cbn beta iota. cbn [fst snd]. rewrite IH, multierr_Append_app, app_assoc, app_nil_r.
    reflexivity.
Qed.

Lemma multiWriteSyncer_Write_eq (ws : list Sink) (p : string) :
  Sink_Write (multiWriteSyncer ws) p
  = ((fold_left nextWritten (map (fun w => fst (fst (Sink_Write w p))) ws) 0,
      List.concat (map (fun w => snd (fst (Sink_Write w p))) ws)),
     List.concat (map (fun w => snd (Sink_Write w p)) ws)).
Proof.
  exact (multiWriteSyncer_Write_loop ws p 0 []).
Qed.

Lemma multiWriteSyncer_Sync_eq (ws : list Sink) :
  Sink_Sync (multiWriteSyncer ws)
  = (List.concat (map (fun w => fst (Sink_Sync w)) ws),
     List.concat (map (fun w => snd (Sink_Sync w)) ws)).
Proof.
  exact (forRange_collect Sink_Sync ws []).
Qed.

(** X24. [multiWriteSyncer.Write] writes to every syncer, in order and
    whatever the earlier ones answered, and returns all their errors
    together, nil exactly when every syncer returned nil;
    [multiWriteSyncer.Sync] does the same with [Sync]. *)
Theorem multiWriteSyncer_writes_all (ws : list Sink) (p : string) :
  snd (Sink_Write (multiWriteSyncer ws) p)
  = List.concat (map (fun w => snd (Sink_Write w p)) ws)
  /\ snd (fst (Sink_Write (multiWriteSyncer ws) p))
     = List.concat (map (fun w => snd (fst (Sink_Write w p))) ws)
  /\ (snd (fst (Sink_Write (multiWriteSyncer ws) p)) = [] <->
      forall w, In w ws -> snd (fst (Sink_Write w p)) = [])
  /\ Sink_Sync (multiWriteSyncer ws)
     = (List.concat (map (fun w => fst (Sink_Sync w)) ws),
        List.concat (map (fun w => snd (Sink_Sync w)) ws))
  /\ (fst (Sink_Sync (multiWriteSyncer ws)) = [] <->
      forall w, In w ws -> fst (Sink_Sync w) = []).
Proof.
  rewrite multiWriteSyncer_Write_eq, multiWriteSyncer_Sync_eq. cbn [fst snd].
  repeat split; apply collected_nil.
Qed.

Lemma fold_nextWritten_min (ns : list Z) (n0 : Z) :
  0 < n0 -> Forall (fun n => 0 < n) ns ->
  fold_left nextWritten ns n0 = fold_left Z.min ns n0.
Proof.
  intros H0 H. revert n0 H0. induction H as [| n ns Hn _ IH]; intros n0 H0; cbn [fold_left].
  - reflexivity.
  - assert (E : nextWritten n0 n = Z.min n0 n).
    { unfold nextWritten. destruct (Z.eqb_spec n0 0); [lia |]. cbn [andb].
      destruct (Z.ltb_spec n n0); lia. }
    rewrite E. apply IH. lia.
Qed.

(** X25. When every syncer of a multi syncer reports a positive number
    of bytes, [multiWriteSyncer.Write] returns the smallest of these
    numbers. *)
Theorem multiWriteSyncer_Write_smallest (w : Sink) (ws : list Sink) (p : string) :
  Forall (fun s => 0 < fst (fst (Sink_Write s p))) (w :: ws) ->
  fst (fst (Sink_Write (multiWriteSyncer (w :: ws)) p))
  = fold_left Z.min (map (fun s => fst (fst (Sink_Write s p))) ws)
      (fst (fst (Sink_Write w p))).
Proof.
  intros H. rewrite multiWriteSyncer_Write_eq. cbn [fst map fold_left].
  inversion H as [| x xs Hw Hws]; subst.
  assert (E : nextWritten 0 (fst (fst (Sink_Write w p))) = fst (fst (Sink_Write w p))).
  { unfold nextWritten. cbn [Z.eqb andb].
    destruct (Z.eqb_spec (fst (fst (Sink_Write w p))) 0); [lia | reflexivity]. }
  rewrite E. apply fold_nextWritten_min; [assumption |].
  clear -Hws. induction Hws; constructor; assumption.
Qed.

(** ** The refusal of [NewIncreaseLevelCore] *)

Section RefusalProperties.
Variable load : nat -> Z.

Lemma firstWidened_highest (core : Core) (level : LevelEnabler) (x : Level) (fuel : nat) :
  forall l,
    l - Z.of_nat fuel < x <= l ->
    _minLevel <= x ->
    Core_Enabled load core x = false -> Enabled load level x = true ->
    (forall y, x < y <= l ->
       negb (Core_Enabled load core y) && Enabled load level y = false) ->
    firstWidened load fuel l core level = Some x.
Proof.
  induction fuel as [| fuel IH]; intros l Hf Hmin Hc He Hhigh.
  - cbn in Hf. lia.
  - cbn [firstWidened]. destruct (Z.geb_spec l _minLevel) as [_ | Hlt]; [| lia].
    destruct (Z.eq_dec l x) as [-> | Hne].
    + now rewrite Hc, He.
    + rewrite Hhigh by lia. apply IH; trivial; [lia |].
      intros y Hy. apply Hhigh. lia.
Qed.

(** X26. When several levels of [Debug .. Fatal] are enabled by the new
    enabler and not by the core, the error of [NewIncreaseLevelCore] names
    the highest of them. *)
Theorem NewIncreaseLevelCore_names_highest
  (core : Core) (level : LevelEnabler) (x : Level) :
  _minLevel <= x <= _maxLevel ->
  Core_Enabled load core x = false -> Enabled load level x = true ->
  (forall y, x < y <= _maxLevel ->
     negb (Core_Enabled load core y) && Enabled load level y = false) ->
  NewIncreaseLevelCore load core level
  = (None,
     [("invalid increase level, as level " ++ quote ++ Level_String x ++ quote
       ++ " is allowed by increased level, but not by existing core")%string]).
Proof.
  intros Hr Hc He Hhigh. unfold NewIncreaseLevelCore.
  rewrite (firstWidened_highest core level x 8 _maxLevel); trivial.
  - unfold _maxLevel, _minLevel, FatalLevel, DebugLevel in *. cbn. lia.
  - lia.
Qed.
End RefusalProperties.

(** ** Logging to an observer *)

Section ObserverProperties.
Variable load : nat -> Z.

Lemma annotate_plain (log : Logger) (rt : Runtime) (ent : Entry) (p : nat) (w : World) :
  addCaller log = false ->
  Enabled load (addStack log) (entLevel (ceEntry (heap w p))) = false ->
  exists w',
    annotate load log rt ent p w = (Some p, w')
    /\ heap w' p = set_ErrorOutput (Some (errorOutput log)) (heap w p)
    /\ trace w' = trace w.
Proof.
  intros Hcaller Hstack. unfold annotate. run. rewrite !Nat.eqb_refl. run.
  rewrite Hcaller, Hstack. cbn [negb andb]. run.
  eexists. split; [reflexivity |]. run. now rewrite Nat.eqb_refl.
Qed.

Lemma Logger_Log_observer
  (log : Logger) (rt : Runtime) (lvl : Level) (msg : string) (fields : list Field)
  (w : World) (enab : LevelEnabler) (logs : nat) (context : list Field) :
  core log = contextObserver enab logs context ->
  terminalLevel log lvl = false ->
  Enabled load enab lvl = true ->
  addCaller log = false ->
  Enabled load (addStack log) lvl = false ->
  exists w',
    Logger_Log load log rt lvl msg fields w = (Returned, w')
    /\ trace w'
       = trace w ++ [EvObserve logs (mkEntry lvl (Now rt) (name log) msg noCaller "")
                       (context ++ fields)].
Proof.
  intros Hcore Hnt Hen Hcaller Hstack.
  set (ent := mkEntry lvl (Now rt) (name log) msg noCaller "").
  assert (Hcheck : exists p w1,
            Logger_check load log rt lvl msg w = (Some p, w1)
            /\ heap w1 p
               = mkCheckedEntry ent (Some (errorOutput log)) false nilHook
                   [contextObserver enab logs context]
            /\ trace w1 = trace w).
  { unfold terminalLevel in Hnt.
    apply orb_false_iff in Hnt as [Hnt H3]. apply orb_false_iff in Hnt as [H4 H5].
    unfold Logger_check. rewrite Hcore. cbn [Core_Enabled Core_Check].
    rewrite Hen. cbn [negb]. rewrite andb_false_r.
    unfold leaf_Check. cbn [entLevel]. rewrite Hen, H4, H5. fold ent.
    destruct (AddCore_nil_fresh ent (contextObserver enab logs context) w)
      as [p [w1 [E [Hh [Ht _]]]]].
    rewrite (bind_eq _ _ _ _ _ (bind_eq _ (fun p => ret (Some p)) _ _ _ E)).
    assert (Hsw : forall k : option nat -> M (option nat),
              bind (if lvl =? DPanicLevel
                    then if development log
                         then bind (CheckedEntry_After (Some p) ent
                                      (terminalHookOverride (ActionHook WriteThenPanic)
                                         (onPanic log)))
                                (fun p => ret (Some p))
                         else ret (Some p)
                    else ret (Some p)) k w1 = k (Some p) w1).
    { intros k. destruct (lvl =? DPanicLevel); [| reflexivity].
      cbn in H3. now rewrite H3. }
    unfold ret at 1. rewrite Hsw. cbn [negb].
    destruct (annotate_plain log rt ent p w1 Hcaller) as [w2 [E2 [Hh2 Ht2]]].
    { now rewrite Hh. }
    exists p, w2. split; [exact E2 |]. rewrite Hh2, Hh, Ht2. now split. }
  destruct Hcheck as [p [w1 [E [Hh Ht]]]].
  unfold Logger_Log. rewrite (bind_eq _ _ _ _ _ E).
  assert (Hd : dirty (heap w1 p) = false) by now rewrite Hh.
  destruct (Write_first p fields w1 Hd) as [w2 [E2 [Ht2 _]]].
  rewrite Hh in E2, Ht2. cbn in E2, Ht2.
  exists w2. split; [exact E2 |]. now rewrite Ht2, Ht.
Qed.

(** X27. A logger on an observer core, without caller or stack
    annotation, at an enabled level without terminal hook: [Log] on the
    logger obtained by [With] returns and hands the observer the entry
    once, with the level, the time of the clock, the logger's name and the
    message, and with the observer's context, then the fields of [With],
    then the fields of the call. *)
Theorem Logger_With_Log_observed
  (log : Logger) (rt : Runtime) (lvl : Level) (msg : string) (more fields : list Field)
  (w : World) (enab : LevelEnabler) (logs : nat) (context : list Field) :
  core log = contextObserver enab logs context ->
  terminalLevel log lvl = false ->
  Enabled load enab lvl = true ->
  addCaller log = false ->
  Enabled load (addStack log) lvl = false ->
  exists w',
    Logger_Log load (Logger_With log more) rt lvl msg fields w = (Returned, w')
    /\ trace w'
       = trace w ++ [EvObserve logs (mkEntry lvl (Now rt) (name log) msg noCaller "")
                       (context ++ more ++ fields)].
Proof.
  intros Hcore Hnt Hen Hcaller Hstack.
  destruct more as [| f fs].
  - cbn [Logger_With app].
    now apply (Logger_Log_observer log rt lvl msg fields w enab logs context).
  - rewrite app_assoc.
    apply (Logger_Log_observer (Logger_With log (f :: fs)) rt lvl msg fields w enab logs
             (context ++ f :: fs)); trivial.
    cbn [Logger_With Logger_set_core Logger_clone core]. now rewrite Hcore.
Qed.
End ObserverProperties.

(** ** Hooks, from [Check] to [Write] *)

Section HookedUseProperties.
Variable load : nat -> Z.

(** X28. [Check] on a nil handle through a core with hooks returns nil
    when the wrapped core does; otherwise the handle it returns, written,
    runs the cores that the wrapped core registered and then every hook
    once, in registration order, and returns. *)
Theorem hooked_Check_then_Write
  (inner : Core) (funcs : list Hook) (ent : Entry) (fields : list Field) (w : World) :
  (Core_Check load inner ent None w = (None, w)
   /\ Core_Check load (hooked inner funcs) ent None w = (None, w))
  \/ exists p w1 w2 added,
       Core_Check load (hooked inner funcs) ent None w = (Some p, w1)
       /\ cores (heap w1 p) = added ++ [hooked inner funcs]
       /\ added <> []
       /\ CheckedEntry_Write (Some p) fields w1 = (Returned, w2)
       /\ trace w2
          = trace w
            ++ List.concat (map (fun c => snd (Core_Write c ent fields)) added)
            ++ map (fun f => EvHook (hookName f) ent) funcs.
Proof.
  cbn [Core_Check]. unfold hooked_Check.
  destruct (Check_on_nil load inner ent w)
    as [E | [p [w0 [added [E [Hh [Hne [Ht He]]]]]]]];
    rewrite !(bind_eq _ _ _ _ _ E); [left; now split | right].
  destruct (AddCore_appends p ent (hooked inner funcs) w0)
    as [w1 [E1 [Hh1 [_ [Ht1 _]]]]].
  rewrite (bind_eq _ _ _ _ _ E1). rewrite Hh in Hh1. unfold set_cores in Hh1. cbn in Hh1.
  assert (Hd : dirty (heap w1 p) = false) by now rewrite Hh1.
  destruct (Write_first p fields w1 Hd) as [w2 [E2 [Ht2 _]]].
  rewrite Hh1 in E2, Ht2. cbn [after ceEntry cores ErrorOutput hookOutcome errorReport
    hookEvents] in E2, Ht2.
  exists p, w1, w2, added. split; [reflexivity |]. rewrite Hh1.
  repeat split; trivial.
  rewrite Ht2, Ht1, Ht, map_app, concat_app, !app_nil_r. cbn [map List.concat].
  rewrite app_nil_r. do 2 f_equal.
  cbn [Core_Write]. unfold hooked_Write.
  rewrite (forRange_collect (fun f => Hook_call f ent)). cbn [snd].
  clear. induction funcs as [| f fs IH]; [reflexivity |].
  cbn [map List.concat]. now rewrite IH.
Qed.

(** X29. For a static level as enabler, [LevelOf] is that level when it
    lies in [Debug .. Fatal], [DebugLevel] when it lies below and
    [InvalidLevel] when it lies above; a core built by [NewCore] on it
    reports the same. *)
Theorem LevelOf_StaticLevel (t : Level) (enc : Encoder) (ws : WriteSyncer) :
  LevelOf load (StaticLevel t)
  = (if t <? _minLevel then _minLevel
     else if t <=? _maxLevel then t else InvalidLevel)
  /\ LevelOf load (CoreEnabler (NewCore enc ws (StaticLevel t)))
     = LevelOf load (StaticLevel t).
Proof.
  split; [| reflexivity]. cbn [LevelOf].
  destruct (probe_spec (Level_Enabled t)) as [[l [Hl [He [Hmin ->]]]] | [Hnone ->]].
  - unfold Level_Enabled in *. apply Z.geb_le in He.
    destruct (Z.ltb_spec t _minLevel) as [Hlt | Hge].
    + destruct (Z.eq_dec l _minLevel) as [-> | Hne]; [reflexivity |].
      specialize (Hmin _minLevel). rewrite Z.geb_leb in Hmin.
      assert (Hf : (t <=? _minLevel) = false) by (apply Hmin; lia).
      apply Z.leb_gt in Hf. lia.
    + destruct (Z.leb_spec t _maxLevel) as [Hle | Hgt]; [| lia].
      destruct (Z.eq_dec l t) as [-> | Hne]; [reflexivity |].
      specialize (Hmin t). rewrite Z.geb_leb in Hmin.
      assert (Hf : (t <=? t) = false) by (apply Hmin; lia).
      apply Z.leb_gt in Hf. lia.
  - unfold Level_Enabled in Hnone.
    destruct (Z.ltb_spec t _minLevel) as [Hlt | Hge].
    + specialize (Hnone _minLevel). rewrite Z.geb_leb in Hnone.
      assert (Hf : (t <=? _minLevel) = false).
      { apply Hnone. unfold _minLevel, _maxLevel, DebugLevel, FatalLevel. lia. }
      apply Z.leb_gt in Hf. lia.
    + destruct (Z.leb_spec t _maxLevel) as [Hle | Hgt]; [| reflexivity].
      specialize (Hnone t). rewrite Z.geb_leb in Hnone.
      assert (Hf : (t <=? t) = false) by (apply Hnone; lia).
      apply Z.leb_gt in Hf. lia.
Qed.
End HookedUseProperties.

(** ** The further properties at sample values *)

Lemma Core_Check_disabled_witness :
  Core_Enabled noAtomics errorCore (entLevel infoEntry) = false
  /\ Core_Check noAtomics errorCore infoEntry None emptyWorld = (None, emptyWorld).
Proof.
  split; [reflexivity |].
  apply (Core_Check_disabled noAtomics errorCore infoEntry emptyWorld). reflexivity.
Defined.

Lemma Core_Check_enabled_witness :
  builtByConstructors noAtomics infoCore = true
  /\ _minLevel <= entLevel fatalEntry <= _maxLevel
  /\ Core_Enabled noAtomics infoCore (entLevel fatalEntry) = true
  /\ exists p w', Core_Check noAtomics infoCore fatalEntry None emptyWorld = (Some p, w').
Proof.
  split; [reflexivity |]. split; [vm_compute; split; discriminate |].
  split; [reflexivity |].
  apply (Core_Check_enabled noAtomics infoCore fatalEntry emptyWorld).
  - reflexivity.
  - vm_compute; split; discriminate.
  - reflexivity.
Defined.


Lemma Logger_Log_disabled_witness :
  terminalLevel quietLogger InfoLevel = false
  /\ Core_Enabled noAtomics (core quietLogger) InfoLevel = false
  /\ Logger_check noAtomics quietLogger noFrames InfoLevel "hello" emptyWorld
     = (None, emptyWorld)
  /\ Logger_Log noAtomics quietLogger noFrames InfoLevel "hello" [] emptyWorld
     = (Returned, emptyWorld).
Proof.
  split; [reflexivity |]. split; [reflexivity |].
  apply (Logger_Log_disabled noAtomics quietLogger noFrames InfoLevel "hello" []
           emptyWorld); reflexivity.
Defined.

Lemma Logger_Panic_panics_witness :
  (onPanic quietLogger = nilHook \/ onPanic quietLogger = ActionHook WriteThenNoop)
  /\ fst (Logger_Panic noAtomics quietLogger noFrames "bye" [] emptyWorld)
     = Panicked "bye".
Proof.
  split; [left; reflexivity |].
  apply (Logger_Panic_panics noAtomics quietLogger noFrames "bye" [] emptyWorld).
  left; reflexivity.
Defined.

Lemma Logger_Fatal_exits_witness :
  (onFatal quietLogger = nilHook \/ onFatal quietLogger = ActionHook WriteThenNoop)
  /\ fst (Logger_Fatal noAtomics quietLogger noFrames "bye" [] emptyWorld) = OsExit 1.
Proof.
  split; [right; reflexivity |].
  apply (Logger_Fatal_exits noAtomics quietLogger noFrames "bye" [] emptyWorld).
  right; reflexivity.
Defined.

Lemma Logger_Named_Named_witness :
  String.eqb "rpc" "" = false /\ String.eqb "client" "" = false
  /\ Logger_Named (Logger_Named quietLogger "rpc") "client"
     = Logger_Named quietLogger "rpc.client".
Proof.
  split; [reflexivity |]. split; [reflexivity |].
  apply (Logger_Named_Named quietLogger "rpc" "client"); reflexivity.
Defined.

Lemma Level_text_round_trip_witness :
  _minLevel <= WarnLevel <= _maxLevel
  /\ Level_UnmarshalText asciiLower (fun s => s) (Some FatalLevel)
       (fst (Level_MarshalText WarnLevel)) = (Some WarnLevel, [])
  /\ ParseLevel asciiLower (fun s => s) (Level_String WarnLevel) = (WarnLevel, []).
Proof.
  split; [vm_compute; split; discriminate |].
  apply (Level_text_round_trip asciiLower (fun s => s) WarnLevel FatalLevel).
  vm_compute; split; discriminate.
Defined.

Lemma Level_capital_parses_witness :
  (forall s, isASCII s = true -> asciiLower s = asciiLower s)
  /\ _minLevel <= DPanicLevel <= _maxLevel
  /\ ParseLevel asciiLower (fun s => s) (Level_CapitalString DPanicLevel)
     = (DPanicLevel, []).
Proof.
  split; [reflexivity |]. split; [vm_compute; split; discriminate |].
  apply (Level_capital_parses asciiLower (fun s => s) DPanicLevel).
  - reflexivity.
  - vm_compute; split; discriminate.
Defined.

Lemma AtomicLevel_SetLevel_Level_witness :
  -128 <= ErrorLevel <= 127
  /\ AtomicLevel_Level (AtomicLevel_SetLevel noAtomics 0%nat ErrorLevel) 0%nat = ErrorLevel.
Proof.
  split; [vm_compute; split; discriminate |].
  apply (AtomicLevel_SetLevel_Level noAtomics 0%nat ErrorLevel).
  vm_compute; split; discriminate.
Defined.

Lemma EntryCaller_TrimmedPath_two_segments_witness :
  containsByte "zap" slash = false /\ containsByte "logger.go" slash = false
  /\ EntryCaller_TrimmedPath
       (mkEntryCaller true 1 "/home/u/src/zap/logger.go" 42 "main.run")
     = "zap/logger.go:42".
Proof.
  split; [reflexivity |]. split; [reflexivity |].
  apply (EntryCaller_TrimmedPath_two_segments 1 "/home/u/src" "zap" "logger.go" 42
           "main.run"); reflexivity.
Defined.

Lemma EntryCaller_TrimmedPath_short_witness :
  containsByte "zap" slash = false /\ containsByte "logger.go" slash = false
  /\ EntryCaller_TrimmedPath (mkEntryCaller true 1 "zap/logger.go" 42 "main.run")
     = EntryCaller_FullPath (mkEntryCaller true 1 "zap/logger.go" 42 "main.run").
Proof.
  split; [reflexivity |]. split; [reflexivity |].
  apply (EntryCaller_TrimmedPath_short 1 "zap" "logger.go" 42 "main.run" "");
    reflexivity.
Defined.

Lemma multiWriteSyncer_Write_smallest_witness :
  Forall (fun s => 0 < fst (fst (Sink_Write s "log line"))) [fiveBytes; threeBytes]
  /\ fst (fst (Sink_Write (multiWriteSyncer [fiveBytes; threeBytes]) "log line")) = 3.
Proof.
  split; [repeat constructor |].
  apply (multiWriteSyncer_Write_smallest fiveBytes [threeBytes] "log line").
  repeat constructor.
Defined.

Lemma NewIncreaseLevelCore_names_highest_witness :
  _minLevel <= WarnLevel <= _maxLevel
  /\ Core_Enabled noAtomics errorCore WarnLevel = false
  /\ Enabled noAtomics (StaticLevel WarnLevel) WarnLevel = true
  /\ fst (NewIncreaseLevelCore noAtomics errorCore (StaticLevel WarnLevel)) = None.
Proof.
  split; [vm_compute; split; discriminate |]. split; [reflexivity |].
  split; [reflexivity |].
  rewrite (NewIncreaseLevelCore_names_highest noAtomics errorCore (StaticLevel WarnLevel)
             WarnLevel); [reflexivity | vm_compute; split; discriminate
                          | reflexivity | reflexivity |].
  intros y Hy. cbn. unfold Level_Enabled, ErrorLevel, WarnLevel, _maxLevel, FatalLevel in *.
  destruct (Z.geb_spec y 2); [reflexivity | lia].
Defined.

Lemma Logger_With_Log_observed_witness :
  core observerLogger = contextObserver (StaticLevel InfoLevel) 0 []
  /\ terminalLevel observerLogger WarnLevel = false
  /\ Enabled noAtomics (StaticLevel InfoLevel) WarnLevel = true
  /\ addCaller observerLogger = false
  /\ Enabled noAtomics (addStack observerLogger) WarnLevel = false
  /\ exists w',
       Logger_Log noAtomics (Logger_With observerLogger [mkField "k" "v"]) noFrames
         WarnLevel "disk low" [mkField "free" "3%"] emptyWorld = (Returned, w')
       /\ trace w'
          = [EvObserve 0 (mkEntry WarnLevel 0 "svc" "disk low" noCaller "")
               [mkField "k" "v"; mkField "free" "3%"]].
Proof.
  repeat (split; [reflexivity |]).
  apply (Logger_With_Log_observed noAtomics observerLogger noFrames WarnLevel "disk low"
           [mkField "k" "v"] [mkField "free" "3%"] emptyWorld (StaticLevel InfoLevel)
           0%nat []); reflexivity.
Defined.
